(** * rpyc plug-in server (rpyc/utils/server.py): a shallow embedding

    The module defines [Server] with its two dispatch variants
    [ThreadedServer] and [ForkingServer].  Its methods mutate the attributes
    of [self] and talk to the operating system (sockets, signals, fork) and to
    three collaborators (authenticator, session runner, registrar).  The
    embedding threads the mutable attributes through a small monad that also
    carries Python's exceptions and records every external call as an event,
    so that statements such as "shutdown is attempted before close" or "no
    second unregister" can be read off the event list of a call.

    Embedded: the two constructors, [Server.close], [accept],
    [_authenticate_and_serve_client], [_serve_client], [_bg_register],
    [start], the three [_accept_method]s, [ForkingServer.close] and the child
    reaper [_handle_sigchld].  Left out: [_get_logger] and [fileno], which
    only pass a value on. *)

From stdpp Require Import base gmap sets list strings.
From Stdlib Require Import ZArith Lia.

#[local] Set Warnings "-clear-no-such-hyp".
Local Open Scope Z_scope.

(** ** Values *)

(** A socket object is known by its identity; [set()] hashes it by identity. *)
Abbreviation sock := positive (only parsing).

Definition addr : Type := string * Z.

(** Credentials are opaque; [None] is Python's [None]. *)
Definition cred : Type := option string.

(** Exceptions deriving from [Exception]. *)
Inductive error : Type :=
  | SocketTimeout                 (* socket.timeout *)
  | SocketError (errno : Z)       (* socket.error, args = (errno, text) *)
  | AuthenticationError
  | EOFError
  | TypeError
  | NotImplementedError
  | OtherError (msg : string).

(** [BaseException]: the errors above, and the interrupt that the
    interpreter raises in the main thread on Ctrl+C. *)
Inductive exn : Type :=
  | Err (e : error)
  | KeyboardInterrupt.

Definition EINTR : Z := 4.
Definition EBADF : Z := 9.
Definition EINVAL : Z := 22.

(** [ex[0]] on an exception object.  Python 2 defines
    [BaseException.__getitem__] as indexing into [args]; Python 3 removed it,
    so subscripting an exception raises [TypeError]. *)
Inductive py_version : Type := Py2 | Py3.

Inductive handler : Type :=
  | SigDfl
  | SigUser (n : nat)
  | HandleSigchld.                (* ForkingServer._handle_sigchld *)

(** What one call of [listener.accept()] may deliver. *)
Inductive listen_outcome : Type :=
  | LConn (s : sock) (a : addr)
  | LFail (e : exn).

Inductive listener_state : Type :=
  | Bound
  | Listening (backlog : Z)
  | LClosed.

(** External calls, in the order they are made. *)
Inductive event : Type :=
  | ELog (msg : string)
  | EPrint
  | EListen (backlog : Z)
  | ESetTimeout
  | EListenerClose
  | ESetBlocking (s : sock)
  | EGetPeerName (s : sock)
  | EShutdown (s : sock)          (* sock.shutdown(SHUT_RDWR) *)
  | ESockClose (s : sock)
  | EAuthenticate (s : sock)
  | EServe (s : sock) (c : cred)  (* the session runner is entered *)
  | ERegister (aliases : list string) (port : Z)
  | EUnregister (port : Z)
  | ESpawnWorker (s : sock)
  | ESpawnHeartbeat
  | EFork (pid : Z)
  | ESignal (h : handler)
  | ESleep (seconds : Z)
  | EExit (code : Z).

(** ** The attributes of [self] *)

Inductive variant : Type := BaseServer | ThreadedServer | ForkingServer.

(** Attributes that are assigned in [__init__] and never again. *)
Record config : Type := Config {
  kind : variant;
  authenticator : option (sock -> (sock * cred) + error);
  backlog : Z;
  auto_register : bool;
  port : Z;
  service_aliases : list string;
  REREGISTER_INTERVAL : Z;
  _prevhandler : handler;
}.

(** Attributes and operating-system objects that change. *)
Record state : Type := State {
  active : bool;
  _closed : bool;
  clients : gset positive;
  listener : listener_state;
  incoming : list listen_outcome;   (* what the listener will deliver next *)
  open_socks : gset positive;       (* sockets on which close() was not called *)
  sigchld : handler;
}.

Definition set_active (b : bool) (st : state) : state :=
  State b (_closed st) (clients st) (listener st) (incoming st) (open_socks st) (sigchld st).
Definition set_closed (b : bool) (st : state) : state :=
  State (active st) b (clients st) (listener st) (incoming st) (open_socks st) (sigchld st).
Definition set_clients (c : gset positive) (st : state) : state :=
  State (active st) (_closed st) c (listener st) (incoming st) (open_socks st) (sigchld st).
Definition set_listener (l : listener_state) (st : state) : state :=
  State (active st) (_closed st) (clients st) l (incoming st) (open_socks st) (sigchld st).
Definition set_incoming (t : list listen_outcome) (st : state) : state :=
  State (active st) (_closed st) (clients st) (listener st) t (open_socks st) (sigchld st).
Definition set_open_socks (o : gset positive) (st : state) : state :=
  State (active st) (_closed st) (clients st) (listener st) (incoming st) o (sigchld st).
Definition set_sigchld (h : handler) (st : state) : state :=
  State (active st) (_closed st) (clients st) (listener st) (incoming st) (open_socks st) h.

(** The collaborators and the parts of the operating system whose answers
    the server only consumes. *)
Record Env : Type := MkEnv {
  getpeername : sock -> option addr;            (* None: raises socket.error *)
  shutdown_fails : sock -> option error;        (* sock.shutdown(SHUT_RDWR) *)
  serve_all : sock -> cred -> option exn;       (* Connection(...).serve_all() *)
  unregister_fails : Z -> option error;         (* registrar.unregister(port) *)
  register_fails : nat -> option error;         (* n-th registrar.register(...) *)
  time_time : nat -> Z;                         (* n-th reading of time.time() *)
  os_fork : sock -> Z;                          (* pid returned in this process *)
}.

(** ** A monad for statements *)

Inductive result (A : Type) : Type :=
  | Ok (a : A)
  | Raise (e : exn)
  | Exited (code : Z)              (* os._exit: no handler runs any more *)
  | Blocked.                       (* still inside listener.accept() *)
Arguments Ok {A} a.
Arguments Raise {A} e.
Arguments Exited {A} code.
Arguments Blocked {A}.

Definition M (A : Type) : Type := state -> result A * state * list event.

Definition res {A} (x : result A * state * list event) : result A := x.1.1.
Definition st_of {A} (x : result A * state * list event) : state := x.1.2.
Definition evs {A} (x : result A * state * list event) : list event := x.2.

Definition ret {A} (a : A) : M A := fun st => (Ok a, st, []).
Definition raise {A} (e : exn) : M A := fun st => (Raise e, st, []).
Definition blocked {A} : M A := fun st => (Blocked, st, []).
Definition emit (e : event) : M unit := fun st => (Ok tt, st, [e]).
Definition get : M state := fun st => (Ok st, st, []).
Definition modify (f : state -> state) : M unit := fun st => (Ok tt, f st, []).

Definition bind {A B} (m : M A) (k : A -> M B) : M B := fun st =>
  match m st with
  | (Ok a, st1, t1) => let '(r, st2, t2) := k a st1 in (r, st2, t1 ++ t2)
  | (Raise e, st1, t1) => (Raise e, st1, t1)
  | (Exited c, st1, t1) => (Exited c, st1, t1)
  | (Blocked, st1, t1) => (Blocked, st1, t1)
  end.

#[global] Instance M_ret : MRet M := @ret.
#[global] Instance M_bind : MBind M := fun A B k m => bind m k.

(** [try: body / except ...: handler / else: els].  The handler receives the
    exception and re-raises what its clauses do not match; exceptions of the
    [else] block are not handled. *)
Definition try_except_else {A B} (body : M A) (h : exn -> M B) (els : A -> M B) : M B :=
  fun st =>
  match body st with
  | (Ok a, st1, t1) => let '(r, st2, t2) := els a st1 in (r, st2, t1 ++ t2)
  | (Raise e, st1, t1) => let '(r, st2, t2) := h e st1 in (r, st2, t1 ++ t2)
  | (Exited c, st1, t1) => (Exited c, st1, t1)
  | (Blocked, st1, t1) => (Blocked, st1, t1)
  end.

Definition try_except {A} (body : M A) (h : exn -> M A) : M A :=
  try_except_else body h ret.

(** [try: body / finally: fin].  The finalizer runs after a normal end and
    after an exception; its own exception replaces the pending one. *)
Definition try_finally {A} (body : M A) (fin : M unit) : M A := fun st =>
  match body st with
  | (Ok a, st1, t1) =>
      match fin st1 with
      | (Ok _, st2, t2) => (Ok a, st2, t1 ++ t2)
      | (Raise e, st2, t2) => (Raise e, st2, t1 ++ t2)
      | (Exited c, st2, t2) => (Exited c, st2, t1 ++ t2)
      | (Blocked, st2, t2) => (Blocked, st2, t1 ++ t2)
      end
  | (Raise e, st1, t1) =>
      match fin st1 with
      | (Ok _, st2, t2) => (Raise e, st2, t1 ++ t2)
      | (Raise e', st2, t2) => (Raise e', st2, t1 ++ t2)
      | (Exited c, st2, t2) => (Exited c, st2, t1 ++ t2)
      | (Blocked, st2, t2) => (Blocked, st2, t1 ++ t2)
      end
  | (Exited c, st1, t1) => (Exited c, st1, t1)
  | (Blocked, st1, t1) => (Blocked, st1, t1)
  end.

(** [for x in xs: body x] *)
Fixpoint for_each {A} (xs : list A) (body : A -> M unit) : M unit :=
  match xs with
  | [] => ret tt
  | x :: xs' => body x;; for_each xs' body
  end.

(** [except Exception: pass] *)
Definition except_Exception_pass (e : exn) : M unit :=
  match e with
  | Err _ => ret tt
  | KeyboardInterrupt => raise KeyboardInterrupt
  end.

Definition log (msg : string) : M unit := emit (ELog msg).

(** ** Sockets and signals *)

Definition option_raise (o : option error) : M unit :=
  match o with
  | None => ret tt
  | Some e => raise (Err e)
  end.

Section Server.

Variable py : py_version.
Variable cfg : config.
Variable env : Env.

Definition sock_getpeername (s : sock) : M addr :=
  emit (EGetPeerName s);;
  match getpeername env s with
  | Some a => ret a
  | None => raise (Err (SocketError EBADF))
  end.

Definition sock_shutdown (s : sock) : M unit :=
  emit (EShutdown s);; option_raise (shutdown_fails env s).

Definition sock_close (s : sock) : M unit :=
  emit (ESockClose s);;
  modify (fun st => set_open_socks (open_socks st ∖ {[s]}) st).

Definition listener_close : M unit :=
  emit EListenerClose;; modify (set_listener LClosed).

Definition listener_listen (n : Z) : M unit :=
  st ← get;
  match listener st with
  | LClosed => raise (Err (SocketError EBADF))
  | _ => emit (EListen n);; modify (set_listener (Listening n))
  end.

(** One call of [self.listener.accept()]: a closed listener refuses, one
    that was never put to listen refuses, otherwise the next outcome that the
    operating system has for it is delivered; with none left the call has
    not returned yet. *)
Definition listener_accept : M (sock * addr) :=
  st ← get;
  match listener st with
  | LClosed => raise (Err (SocketError EBADF))
  | Bound => raise (Err (SocketError EINVAL))
  | Listening _ =>
      match incoming st with
      | [] => blocked
      | LConn s a :: rest =>
          modify (fun st => set_open_socks ({[s]} ∪ open_socks st) (set_incoming rest st));;
          ret (s, a)
      | LFail e :: rest => modify (set_incoming rest);; raise e
      end
  end.

Definition signal_signal (h : handler) : M handler :=
  st ← get;
  emit (ESignal h);; modify (set_sigchld h);; ret (sigchld st).

(** ** Server.close (lines 49-67) *)

Definition Server_close : M unit :=
  st ← get;
  if _closed st then ret tt
  else
    modify (set_closed true);;
    modify (set_active false);;
    (if auto_register cfg then
       try_except
         (emit (EUnregister (port cfg));; option_raise (unregister_fails env (port cfg)))
         (fun e => match e with
                   | Err _ => log "error unregistering services"
                   | KeyboardInterrupt => raise KeyboardInterrupt
                   end)
     else ret tt);;
    listener_close;;
    log "listener closed";;
    st' ← get;
    for_each (elements (clients st'))
      (fun c => try_except (sock_shutdown c) except_Exception_pass;; sock_close c);;
    modify (set_clients ∅).

(** ** ForkingServer.close (lines 202-204) *)

Definition ForkingServer_close : M unit :=
  Server_close;;
  _ ← signal_signal (_prevhandler cfg);
  ret tt.

Definition close : M unit :=
  match kind cfg with
  | ForkingServer => ForkingServer_close
  | _ => Server_close
  end.

(** ** Server._serve_client (lines 125-138) *)

Definition _serve_client (s : sock) (credentials : cred) : M unit :=
  _ ← sock_getpeername s;
  (match credentials with
   | Some _ => log "welcome (with credentials)"
   | None => log "welcome"
   end);;
  try_finally
    (emit (EServe s credentials);;
     match serve_all env s credentials with
     | None => ret tt
     | Some e => raise e
     end)
    (log "goodbye").

(** ** Server._authenticate_and_serve_client (lines 99-123)

    The local name [sock] is assigned a second time by the tuple assignment
    of line 104, inside the outer [try]; the [finally] clause of lines
    117-123 reads the name, hence the socket the authenticator returned.
    [authenticate] is lines 101-111: it yields the binding of [sock] that
    the rest of the method sees, together with how the method goes on. *)

Inductive flow : Type :=
  | Serve (credentials : cred)
  | Return
  | Propagate (e : exn).

Definition authenticate (s : sock) : M (sock * flow) :=
  match authenticator cfg with
  | Some auth =>
      try_except_else (sock_getpeername s)
        (fun e => ret (s, Propagate e))
        (fun _ =>
           emit (EAuthenticate s);;
           match auth s with
           | inl (s', credentials) =>
               log "authenticated successfully";; ret (s', Serve credentials)
           | inr AuthenticationError =>
               log "failed to authenticate, rejecting connection";; ret (s, Return)
           | inr e => ret (s, Propagate (Err e))
           end)
  | None => ret (s, Serve None)
  end.

Definition teardown (s : sock) : M unit :=
  try_except (sock_shutdown s) except_Exception_pass;;
  sock_close s;;
  modify (fun st => set_clients (clients st ∖ {[s]}) st).

Definition _authenticate_and_serve_client (s : sock) : M unit :=
  '(s', k) ← authenticate s;
  try_finally
    (match k with
     | Serve credentials =>
         try_except (_serve_client s' credentials)
           (fun e => match e with
                     | Err _ => log "client connection terminated abruptly";; raise e
                     | KeyboardInterrupt => raise e
                     end)
     | Return => ret tt
     | Propagate e => raise e
     end)
    (teardown s').

(** ** _accept_method (lines 92-97, 188-191, 218-238) *)

Definition ThreadedServer_accept_method (s : sock) : M unit :=
  emit (ESpawnWorker s).

Definition os_exit {A} (code : Z) : M A := fun st => (Exited code, st, [EExit code]).

Definition ForkingServer_accept_method (s : sock) : M unit :=
  let pid := os_fork env s in
  emit (EFork pid);;
  if (pid =? 0)%Z then
    try_finally
      (try_except_else
         (log "child process created";;
          _ ← signal_signal (_prevhandler cfg);
          listener_close;;
          modify (set_clients ∅);;
          _authenticate_and_serve_client s)
         (fun _ => log "child process terminated abnormally")
         (fun _ => log "child process terminated"))
      (log "child terminated";; os_exit 0)
  else
    sock_close s.

Definition _accept_method (s : sock) : M unit :=
  match kind cfg with
  | BaseServer => raise (Err NotImplementedError)
  | ThreadedServer => ThreadedServer_accept_method s
  | ForkingServer => ForkingServer_accept_method s
  end.

(** ** Server.accept (lines 72-90) *)

(** [ex[0]] at line 80, where [ex] is the [socket.error] just caught. *)
Definition exc_getitem0 (errno : Z) : M Z :=
  match py with
  | Py2 => ret errno
  | Py3 => raise (Err TypeError)
  end.

(** The [while True] loop of lines 73-85.  Every turn that does not leave
    the loop takes one outcome from the listener, so the number of outcomes
    that are left bounds the number of turns. *)
Fixpoint accept_retry (turns : nat) : M (sock * addr) :=
  match turns with
  | O => blocked
  | S n =>
      try_except_else listener_accept
        (fun e => match e with
                  | Err SocketTimeout => accept_retry n
                  | Err (SocketError errno) =>
                      code ← exc_getitem0 errno;
                      if (code =? EINTR)%Z then accept_retry n
                      else raise (Err EOFError)
                  | _ => raise e
                  end)
        ret
  end.

Definition accept : M unit :=
  st ← get;
  '(s, _) ← accept_retry (S (length (incoming st)));
  emit (ESetBlocking s);;
  log "accepted";;
  modify (fun st => set_clients ({[s]} ∪ clients st) st);;
  _accept_method s.

(** Lines 87-90 on their own: what [accept] does with the socket once the
    loop has returned it.  Another thread can run between the loop and these
    lines. *)
Definition register_and_dispatch (s : sock) : M unit :=
  emit (ESetBlocking s);;
  log "accepted";;
  modify (fun st => set_clients ({[s]} ∪ clients st) st);;
  _accept_method s.

(** ** Server.start (lines 160-184) *)

Fixpoint accept_forever (turns : nat) : M unit :=
  match turns with
  | O => blocked
  | S n => accept;; accept_forever n
  end.

(** Lines 162-172, up to the accept loop. *)
Definition startup : M unit :=
  listener_listen (backlog cfg);;
  log "server started";;
  modify (set_active true);;
  (if auto_register cfg then emit ESpawnHeartbeat else ret tt);;
  emit ESetTimeout.

Definition start : M unit :=
  startup;;
  try_finally
    (try_except
       (st ← get; accept_forever (S (length (incoming st))))
       (fun e => match e with
                 | Err EOFError => ret tt
                 | KeyboardInterrupt => emit EPrint;; log "keyboard interrupt!"
                 | _ => raise e
                 end))
    (log "server has terminated";; close).

(** ** Server._bg_register (lines 140-158)

    The heartbeat runs in a thread of its own and reads [self.active], which
    another thread clears, so the method is given as a machine that takes one
    statement at a time.  [time.time()] is read as an integer number of clock
    units. *)

Inductive bg_pc : Type :=
  | BgEnter        (* lines 141-144 *)
  | BgWhile        (* line 146: while self.active *)
  | BgTime         (* lines 147-149 *)
  | BgRegister     (* lines 150-154 *)
  | BgSleep        (* line 155 *)
  | BgFinally      (* lines 156-158 *)
  | BgDone.

Record bg_register : Type := Bg {
  pc : bg_pc;
  tnext : Z;
  reads : nat;     (* readings of the clock so far *)
  calls : nat;     (* calls of registrar.register so far *)
}.

Definition _bg_register : bg_register := Bg BgEnter 0 0 0.

Definition bg_step (st : state) (b : bg_register) : bg_register * list event :=
  match pc b with
  | BgEnter =>
      (Bg BgWhile 0 (reads b) (calls b),
       [ELog "started background auto-register thread"])
  | BgWhile =>
      if active st then (Bg BgTime (tnext b) (reads b) (calls b), [])
      else (Bg BgFinally (tnext b) (reads b) (calls b), [])
  | BgTime =>
      let t := time_time env (reads b) in
      if (tnext b <=? t)%Z
      then (Bg BgRegister (t + REREGISTER_INTERVAL cfg) (S (reads b)) (calls b), [])
      else (Bg BgSleep (tnext b) (S (reads b)) (calls b), [])
  | BgRegister =>
      (Bg BgSleep (tnext b) (reads b) (S (calls b)),
       ERegister (service_aliases cfg) (port cfg) ::
       match register_fails env (calls b) with
       | None => []
       | Some _ => [ELog "error registering services"]
       end)
  | BgSleep => (Bg BgWhile (tnext b) (reads b) (calls b), [ESleep 1])
  | BgFinally =>
      (Bg BgDone (tnext b) (reads b) (calls b),
       if _closed st then [] else [ELog "background auto-register thread finished"])
  | BgDone => (b, [])
  end.

(** ** Threads side by side

    What the other threads do while the server runs, one method at a time:
    the main thread accepts, a worker serves its socket, anyone closes. *)

Inductive action : Type :=
  | DoAccept
  | DoServe (s : sock)
  | DoClose.

Definition perform (a : action) : M unit :=
  match a with
  | DoAccept => accept
  | DoServe s => _authenticate_and_serve_client s
  | DoClose => close
  end.

Definition run_actions (acts : list action) (st : state) : state :=
  foldl (fun st a => st_of (perform a st)) st acts.

(** A schedule of the heartbeat thread against the others.  [start] is not
    among them: it created the heartbeat thread, and nothing else assigns
    [True] to [self.active]. *)
Inductive turn : Type :=
  | Beat
  | Other (a : action).

Fixpoint run_schedule (sched : list turn) (st : state) (b : bg_register)
  : state * bg_register * list event :=
  match sched with
  | [] => (st, b, [])
  | Beat :: rest =>
      let '(b', t) := bg_step st b in
      let '(st', b'', t') := run_schedule rest st b' in
      (st', b'', t ++ t')
  | Other a :: rest => run_schedule rest (st_of (perform a st)) b
  end.

Definition is_beat (t : turn) : bool :=
  match t with Beat => true | Other _ => false end.

Definition is_register (e : event) : bool :=
  match e with ERegister _ _ => true | _ => false end.

Definition is_sleep (e : event) : bool :=
  match e with ESleep _ => true | _ => false end.

End Server.

(** The server as [__init__] leaves it (lines 22-44): bound, not listening,
    no client. *)
Definition Server_init (tape : list listen_outcome) (h : handler) : state :=
  State false false ∅ Bound tape ∅ h.

(** States the server can be in. *)
Inductive reachable (py : py_version) (cfg : config) (env : Env) : state -> Prop :=
  | reach_init tape h : reachable py cfg env (Server_init tape h)
  | reach_startup st :
      reachable py cfg env st ->
      reachable py cfg env (st_of (startup cfg st))
  | reach_step st a :
      reachable py cfg env st ->
      reachable py cfg env (st_of (perform py cfg env a st)).

(** What can happen to a server, one step at a time: a whole method call,
    or the second half of an [accept()] that had taken the socket [s] from the
    listener at line 75 before the steps in between ran. *)
Inductive step : Type :=
  | Call (a : action)
  | CallStartup
  | LateRegister (s : sock).

Definition do_step (py : py_version) (cfg : config) (env : Env) (x : step) : M unit :=
  match x with
  | Call a => perform py cfg env a
  | CallStartup => startup cfg
  | LateRegister s => register_and_dispatch cfg env s
  end.

Definition run_steps (py : py_version) (cfg : config) (env : Env)
    (steps : list step) (st : state) : state :=
  foldl (fun st x => st_of (do_step py cfg env x st)) st steps.

(** ** Server.__init__ (lines 19-44) and ForkingServer.__init__ (lines 195-200)

    The constructor's arguments, and what it finds on the machine it runs
    on.  The service is known by its aliases and the registrar by its
    [REREGISTER_INTERVAL]; the default registrar, [UDPRegistryClient], is not
    in this file, its interval is taken from the host. *)

Record ctor_args : Type := CtorArgs {
  arg_aliases : list string;
  arg_hostname : string;
  arg_port : Z;
  arg_backlog : Z;
  arg_reuse_addr : bool;
  arg_authenticator : option (sock -> (sock * cred) + error);
  arg_registrar : option Z;
  arg_auto_register : bool;
}.

(** The defaults of the signature of line 19. *)
Definition default_args (aliases : list string) : ctor_args :=
  CtorArgs aliases "0.0.0.0" 0 10 true None None true.

Record host : Type := Host {
  sys_platform : string;
  signal_module : bool;                   (* safe_import found the module *)
  bind_port : string -> Z -> Z + error;   (* bind(...), then getsockname()[1] *)
  sigchld_before : handler;               (* the handler of SIGCHLD in place *)
  UDP_REREGISTER_INTERVAL : Z;
}.

Inductive ctor_event : Type :=
  | CSocket
  | CSetReuseAddr
  | CBind (hostname : string) (port : Z)
  | CSignal (h : handler).

(** [_prevhandler] is an attribute of [ForkingServer] only; the other
    variants never read the field. *)
Definition Server__init__ (k : variant) (h : host) (a : ctor_args)
    (tape : list listen_outcome)
  : (config * state + error) * list ctor_event :=
  let reuse :=
    if arg_reuse_addr a && negb (String.eqb (sys_platform h) "win32")
    then [CSetReuseAddr] else [] in
  let done := CSocket :: reuse ++ [CBind (arg_hostname a) (arg_port a)] in
  match bind_port h (arg_hostname a) (arg_port a) with
  | inl p =>
      (inl (Config k (arg_authenticator a) (arg_backlog a) (arg_auto_register a) p
              (arg_aliases a)
              (match arg_registrar a with
               | Some interval => interval
               | None => UDP_REREGISTER_INTERVAL h
               end)
              SigDfl,
            Server_init tape (sigchld_before h)),
       done)
  | inr e => (inr e, done)
  end.

Definition with_prevhandler (h : handler) (cfg : config) : config :=
  Config (kind cfg) (authenticator cfg) (backlog cfg) (auto_register cfg) (port cfg)
    (service_aliases cfg) (REREGISTER_INTERVAL cfg) h.

Definition ForkingServer__init__ (h : host) (a : ctor_args)
    (tape : list listen_outcome)
  : (config * state + error) * list ctor_event :=
  if signal_module h then
    match Server__init__ ForkingServer h a tape with
    | (inl (cfg, st), done) =>
        (inl (with_prevhandler (sigchld_before h) cfg, set_sigchld HandleSigchld st),
         done ++ [CSignal HandleSigchld])
    | (inr e, done) => (inr e, done)
    end
  else
    (inr (OtherError "OSError: ForkingServer not supported on this platform"), []).

(** ** ForkingServer._handle_sigchld (lines 206-216)

    The children of the process as [os.waitpid(-1, os.WNOHANG)] sees them:
    those that have exited and were not waited for yet, and how many are still
    running.  The call returns one exited child and forgets it, returns pid 0
    when children exist but none has exited, and raises [OSError] (ECHILD)
    when the process has no child at all. *)

Record children : Type := Children {
  exited : list Z;
  running : nat;
}.

Inductive waited : Type :=
  | Waited (pid : Z)
  | NoChild.                  (* OSError *)

Definition os_waitpid (c : children) : waited * children :=
  match exited c with
  | pid :: rest => (Waited pid, Children rest (running c))
  | [] =>
      match running c with
      | O => (NoChild, c)
      | S _ => (Waited 0, c)
      end
  end.

(** How the loop of lines 209-212 ends. *)
Inductive reap_end : Type :=
  | Broke                     (* pid <= 0: break *)
  | CaughtOSError             (* except OSError: pass *)
  | Reaping.                  (* still in the loop *)

Fixpoint reap (turns : nat) (c : children) : reap_end * children :=
  match turns with
  | O => (Reaping, c)
  | S n =>
      match os_waitpid c with
      | (Waited pid, c') => if (pid <=? 0)%Z then (Broke, c') else reap n c'
      | (NoChild, c') => (CaughtOSError, c')
      end
  end.

(** Either way the loop ends, line 216 installs the handler again. *)
Definition _handle_sigchld (c : children) : M children :=
  let '(_, c') := reap (S (length (exited c))) c in
  _ ← signal_signal HandleSigchld;
  ret c'.

(** * Vocabulary of the statements *)

(** ** Events and traces *)

(** Events that release something: a registrar entry or a socket. *)
Definition releases (e : event) : bool :=
  match e with
  | EUnregister _ | EListenerClose | EShutdown _ | ESockClose _ => true
  | _ => false
  end.

Definition is_serve (e : event) : bool :=
  match e with EServe _ _ => true | _ => false end.

Definition is_registrar (e : event) : bool :=
  match e with
  | ERegister _ _ | EUnregister _ => true
  | _ => false
  end.

Fixpoint count_if {A} (p : A -> bool) (l : list A) : nat :=
  match l with
  | [] => O
  | x :: l' => ((if p x then 1 else 0) + count_if p l')%nat
  end.

(** A call has come to an end: it returned or it raised. *)
Definition finished (r : result unit) : Prop :=
  r = Ok tt \/ exists e, r = Raise e.

(** ** What [close] and the teardown leave *)

(** The events of the loop of lines 61-66 over the sockets [l]. *)
Definition close_events (l : list positive) : list event :=
  flat_map (fun c => [EShutdown c; ESockClose c]) l.

(** The state [Server.close] leaves when it finds the server not closed. *)
Definition closed_state (st : state) : state :=
  State false true ∅ LClosed (incoming st) (open_socks st ∖ clients st) (sigchld st).

(** The state the [finally] clause of [_authenticate_and_serve_client]
    leaves, for the socket it is run on. *)
Definition torn_down (s : sock) (st : state) : state :=
  set_clients (clients st ∖ {[s]}) (set_open_socks (open_socks st ∖ {[s]}) st).

Section Vocabulary.

Variable py : py_version.
Variable cfg : config.
Variable env : Env.

(** The events of lines 54-58. *)
Definition unregister_events : list event :=
  if auto_register cfg then
    EUnregister (port cfg) ::
    match unregister_fails env (port cfg) with
    | None => []
    | Some _ => [ELog "error unregistering services"]
    end
  else [].

(** The state [close] of either variant leaves when it finds the server
    not closed. *)
Definition after_close (st : state) : state :=
  match kind cfg with
  | ForkingServer => set_sigchld (_prevhandler cfg) (closed_state st)
  | _ => closed_state st
  end.

(** The event of line 204. *)
Definition restore_events : list event :=
  match kind cfg with
  | ForkingServer => [ESignal (_prevhandler cfg)]
  | _ => []
  end.

(** The socket that the name [sock] is bound to when the [finally] clause
    of [_authenticate_and_serve_client] runs. *)
Definition rebound (s : sock) : positive :=
  match authenticator cfg with
  | Some auth =>
      match getpeername env s with
      | Some _ => match auth s with inl (s', _) => s' | inr _ => s end
      | None => s
      end
  | None => s
  end.

(** What [accept] raises when the listener refuses with an error other than
    [EINTR]. *)
Definition refusal : exn :=
  match py with
  | Py2 => Err EOFError
  | Py3 => Err TypeError
  end.

End Vocabulary.

(** The claim of C8 as it is worded: the first [close()] of any server calls
    [registrar.unregister(port)]. *)
Definition first_close_unregisters (cfg : config) (env : Env) (st : state) : Prop :=
  _closed st = false -> EUnregister (port cfg) ∈ evs (close cfg env st).

(** ** The listener's outcomes *)

(** An outcome of [listener.accept()] after which the loop of [accept] is
    meant to go round again: a poll timeout or an interrupted system call. *)
Definition retryable (o : listen_outcome) : bool :=
  match o with
  | LFail (Err SocketTimeout) => true
  | LFail (Err (SocketError n)) => (n =? EINTR)%Z
  | _ => false
  end.

(** What the loop of [accept] is meant to make of the first outcome that is
    not retried. *)
Definition settled (o : listen_outcome) : result (sock * addr) :=
  match o with
  | LConn s a => Ok (s, a)
  | LFail (Err (SocketError _)) => Raise (Err EOFError)
  | LFail e => Raise e
  end.

(** The state after the listener has delivered [o], with [rest] to come. *)
Definition delivered (o : listen_outcome) (rest : list listen_outcome) (st : state)
  : state :=
  match o with
  | LConn s _ => set_open_socks ({[s]} ∪ open_socks st) (set_incoming rest st)
  | LFail _ => set_incoming rest st
  end.

(** ** What a statement leaves alone

    [stable R m]: running [m] takes every state to one related to it by
    [R].  For a preorder [R] this goes through every way of composing
    statements, which gives frame properties of whole methods from those of
    the assignments in them. *)

Definition stable (R : relation state) {A} (m : M A) : Prop :=
  forall st, R st (st_of (m st)).

(** The two flags are as they were. *)
Definition same_flags : relation state :=
  fun st st' => _closed st' = _closed st /\ active st' = active st.

(** Neither the flags nor what the listener has in store changed. *)
Definition same_tape : relation state :=
  fun st st' => same_flags st st' /\ incoming st' = incoming st.

(** Polling the listener changes nothing of [self]; it can only bring a new
    open socket. *)
Definition polled : relation state :=
  fun st st' =>
    _closed st' = _closed st /\ active st' = active st /\
    clients st' = clients st /\ listener st' = listener st /\
    sigchld st' = sigchld st /\ open_socks st ⊆ open_socks st'.

(** ** Invariants *)

(** A closed server is inactive, has an empty registry and a closed
    listener. *)
Definition closed_inv (st : state) : Prop :=
  _closed st = true ->
  active st = false /\ clients st = ∅ /\ listener st = LClosed.

(** No [close()] is half-way and no [accept()] has registered a socket
    behind one: the server is not closed, or it is closed as [close] leaves
    it. *)
Definition close_complete (st : state) : Prop :=
  _closed st = true -> clients st = ∅ /\ listener st = LClosed.

(** The claim of C4 as it is worded, for every server state: when [close()]
    has returned, the registry is empty. *)
Definition registry_empty_after_close (cfg : config) (env : Env) (st : state) : Prop :=
  res (close cfg env st) = Ok tt -> clients (st_of (close cfg env st)) = ∅.

(** The sockets that accepts in flight register in the course of [steps]. *)
Fixpoint registered_late (steps : list step) : gset positive :=
  match steps with
  | [] => ∅
  | LateRegister s :: rest => {[s]} ∪ registered_late rest
  | _ :: rest => registered_late rest
  end.

(** A statement neither reopens the listener, nor changes [_closed], nor
    adds to the registry. *)
Definition kept : relation state :=
  fun st st' =>
    _closed st' = _closed st /\
    (listener st = LClosed -> listener st' = LClosed) /\
    clients st' ⊆ clients st.

(** ** Measures on the heartbeat

    With the server inactive: how many calls of the registrar and how many
    sleeps the thread can still make from a program point, and how many of
    its own steps it is away from the end. *)

Definition calls_left (p : bg_pc) : nat :=
  match p with
  | BgTime | BgRegister => 1
  | _ => 0
  end.

Definition sleeps_left (p : bg_pc) : nat :=
  match p with
  | BgTime | BgRegister | BgSleep => 1
  | _ => 0
  end.

Definition steps_left (p : bg_pc) : nat :=
  match p with
  | BgEnter => 3
  | BgWhile => 2
  | BgTime => 5
  | BgRegister => 4
  | BgSleep => 3
  | BgFinally => 1
  | BgDone => 0
  end.

(** The thread is still in its loop. *)
Definition looping (p : bg_pc) : bool :=
  match p with
  | BgFinally | BgDone => false
  | _ => true
  end.

Definition is_close (t : turn) : bool :=
  match t with Other DoClose => true | _ => false end.

(** ** Concrete servers used in examples *)

Definition peer : addr := ("10.0.0.7"%string, 40000).

(** Collaborators that never fail; every fork returns the child's pid to
    the parent. *)
Definition quiet_env : Env :=
  MkEnv (fun _ => Some peer) (fun _ => None) (fun _ _ => None)
        (fun _ => None) (fun _ => None) (fun n => 1000 + Z.of_nat n)
        (fun _ => 4321).

Definition plain_cfg (k : variant) (auto : bool) : config :=
  Config k None 10 auto 18812 ["SVC"%string] 60 SigDfl.

(** An authenticator that rejects everybody. *)
Definition reject_all : sock -> (sock * cred) + error :=
  fun _ => inr AuthenticationError.

(** An authenticator that wraps the raw socket in a secured channel, a new
    socket object. *)
Definition wrap_channel : sock -> (sock * cred) + error :=
  fun s => inl ((s + 100)%positive, Some "alice"%string).

Definition auth_cfg (k : variant) (auth : sock -> (sock * cred) + error) : config :=
  Config k (Some auth) 10 false 18812 ["SVC"%string] 60 SigDfl.

(** A started server whose listener will deliver [tape]. *)
Definition started (cfg : config) (tape : list listen_outcome) : state :=
  st_of (startup cfg (Server_init tape HandleSigchld)).

(** A threaded server closed by another thread while its [accept()] had
    client 1 in hand: the loop of lines 73-85 returns the socket, [close()]
    runs, then lines 87-90 go on. *)
Definition closed_under_accept (py : py_version) (cfg : config) (env : Env) : state :=
  let st := started cfg [LConn 1%positive peer] in
  let polled := st_of (accept_retry py (S (length (incoming st))) st) in
  st_of (register_and_dispatch cfg env 1%positive (st_of (close cfg env polled))).

(** A started server on which one client has just been accepted. *)
Definition one_client (py : py_version) (cfg : config) (env : Env) : state :=
  st_of (accept py cfg env
    (st_of (startup cfg (Server_init [LConn 1%positive peer] HandleSigchld)))).

(** ** Vocabulary of the further properties *)

(** Every event that [m] leaves satisfies [P]. *)
Definition emits_only (P : event -> Prop) {A} (m : M A) : Prop :=
  forall st, Forall P (evs (m st)).

(** Neither a call of the registrar nor the creation of the heartbeat. *)
Definition off_registry (e : event) : Prop :=
  is_registrar e = false /\ e <> ESpawnHeartbeat.

(** The socket and the credentials with which lines 101-111 let a connection
    through to the session runner, if they do. *)
Definition admitted (cfg : config) (env : Env) (s : sock) : option (positive * cred) :=
  match authenticator cfg with
  | Some auth =>
      match getpeername env s with
      | Some _ => match auth s with inl sc => Some sc | inr _ => None end
      | None => None
      end
  | None => Some (s, None)
  end.

Definition timed_out (o : listen_outcome) : bool :=
  match o with
  | LFail (Err SocketTimeout) => true
  | _ => false
  end.

Definition is_shutdown_of (c : positive) (e : event) : bool :=
  match e with EShutdown c' => Pos.eqb c c' | _ => false end.

Definition is_close_of (c : positive) (e : event) : bool :=
  match e with ESockClose c' => Pos.eqb c c' | _ => false end.

(** How many calls of the registrar the heartbeat can make from a program
    point before it sleeps. *)
Definition calls_before_sleep (p : bg_pc) : nat :=
  match p with
  | BgEnter | BgWhile | BgTime | BgRegister => 1
  | _ => 0
  end.

(** Collaborators that all fail: the peer is gone, shutdown raises, the
    session ends by a protocol error, the registrar is unreachable. *)
Definition failing_env : Env :=
  MkEnv (fun _ => Some peer) (fun _ => Some (SocketError 107))
        (fun _ _ => Some (Err (OtherError "protocol error")))
        (fun _ => Some (OtherError "registry unreachable"))
        (fun _ => Some (OtherError "registry unreachable"))
        (fun n => 1000 + Z.of_nat n) (fun _ => 4321).

(** The collaborators as the child of a fork sees them: [os.fork()]
    returned 0. *)
Definition child_env (env : Env) : Env :=
  MkEnv (getpeername env) (shutdown_fails env) (serve_all env)
        (unregister_fails env) (register_fails env) (time_time env) (fun _ => 0).

(** An authenticator that fails for a reason of its own. *)
Definition broken_auth : sock -> (sock * cred) + error :=
  fun _ => inr (OtherError "certificate store unreadable").

(** A Unix host on which every bind succeeds; port 0 resolves to 50000. *)
Definition unix_host : host :=
  Host "linux" true (fun _ p => inl (if (p =? 0)%Z then 50000 else p)) (SigUser 7) 60.

(** The SIGCHLD handler in place over the life of a [ForkingServer]: the
    server's own until [close()], the previous one from then on. *)
Definition handler_inv (cfg : config) (st : state) : Prop :=
  sigchld st = if _closed st then _prevhandler cfg else HandleSigchld.

(** * Properties *)

(** ** Running the monad *)

Ltac run_m :=
  unfold mbind, M_bind, mret, M_ret, bind, ret, raise, blocked, emit, get,
    modify, log, try_except, try_except_else, try_finally, option_raise,
    res, st_of, evs in *; simpl in *.

Ltac run_set :=
  unfold set_active, set_closed, set_clients, set_listener, set_incoming,
    set_open_socks, set_sigchld in *; simpl in *.

Lemma state_eta (st : state) :
  State (active st) (_closed st) (clients st) (listener st) (incoming st)
        (open_socks st) (sigchld st) = st.
Proof. by destruct st. Qed.

Section Facts.

Variable py : py_version.
Variable cfg : config.
Variable env : Env.

(** An attempt to shut a socket down leaves one event, whatever came of it. *)
Lemma shutdown_swallowed (s : sock) (st : state) :
  try_except (sock_shutdown env s) except_Exception_pass st = (Ok tt, st, [EShutdown s]).
Proof.
  unfold sock_shutdown. run_m.
  by destruct (shutdown_fails env s).
Qed.

Lemma close_clients_run (l : list positive) (st : state) :
  for_each l
    (fun c => try_except (sock_shutdown env c) except_Exception_pass;; sock_close c) st
  = (Ok tt, set_open_socks (open_socks st ∖ list_to_set l) st, close_events l).
Proof.
  revert st. induction l as [|c l IH]; intros st.
  - simpl. unfold ret, set_open_socks. f_equal. f_equal.
    rewrite <- (state_eta st) at 1. f_equal. set_solver.
  - cbn [for_each]. unfold mbind at 1, M_bind at 1, bind at 1.
    unfold mbind at 1, M_bind at 1, bind at 1.
    rewrite shutdown_swallowed.
    unfold sock_close at 1. run_m.
    rewrite IH. simpl. unfold set_open_socks; simpl.
    f_equal. f_equal. f_equal. set_solver.
Qed.

Lemma Server_close_open (st : state) :
  _closed st = false ->
  Server_close cfg env st =
    (Ok tt, closed_state st,
     unregister_events cfg env ++ [EListenerClose; ELog "listener closed"]
       ++ close_events (elements (clients st))).
Proof.
  intros Hc. unfold Server_close, unregister_events, listener_close.
  unfold mbind at 1, M_bind at 1, bind at 1, get at 1. rewrite Hc.
  destruct (auto_register cfg); run_m.
  - destruct (unregister_fails env (port cfg)); simpl;
      rewrite close_clients_run; run_set; unfold closed_state;
      rewrite list_to_set_elements_L, ?app_nil_r; reflexivity.
  - rewrite close_clients_run; run_set; unfold closed_state;
      rewrite list_to_set_elements_L, ?app_nil_r; reflexivity.
Qed.

Lemma Server_close_closed (st : state) :
  _closed st = true -> Server_close cfg env st = (Ok tt, st, []).
Proof.
  intros Hc. unfold Server_close.
  unfold mbind at 1, M_bind at 1, bind at 1, get at 1. by rewrite Hc.
Qed.

Lemma close_open (st : state) :
  _closed st = false ->
  close cfg env st =
    (Ok tt, after_close cfg st,
     unregister_events cfg env ++ [EListenerClose; ELog "listener closed"]
       ++ close_events (elements (clients st)) ++ restore_events cfg).
Proof.
  intros Hc. unfold close, after_close, restore_events, ForkingServer_close.
  destruct (kind cfg);
    try (rewrite (Server_close_open st Hc), ?app_nil_r; reflexivity).
  unfold mbind at 1, M_bind at 1, bind at 1.
  rewrite (Server_close_open st Hc). unfold signal_signal. run_m.
  rewrite <- !app_assoc. reflexivity.
Qed.

Lemma close_closed (st : state) :
  _closed st = true ->
  close cfg env st =
    (Ok tt,
     match kind cfg with
     | ForkingServer => set_sigchld (_prevhandler cfg) st
     | _ => st
     end, restore_events cfg).
Proof.
  intros Hc. unfold close, restore_events, ForkingServer_close.
  destruct (kind cfg); try (apply Server_close_closed; exact Hc).
  unfold mbind at 1, M_bind at 1, bind at 1.
  rewrite (Server_close_closed st Hc). unfold signal_signal. run_m.
  reflexivity.
Qed.

Lemma close_returns (st : state) : res (close cfg env st) = Ok tt.
Proof.
  destruct (_closed st) eqn:Hc.
  - by rewrite close_closed.
  - by rewrite close_open.
Qed.

Lemma close_closes (st : state) : _closed (st_of (close cfg env st)) = true.
Proof.
  destruct (_closed st) eqn:Hc.
  - rewrite close_closed by done. unfold st_of; simpl. by destruct (kind cfg).
  - rewrite close_open by done. unfold st_of, after_close; simpl.
    by destruct (kind cfg).
Qed.

End Facts.

(** C3: [close()] is idempotent.  Whatever the state and whatever the
    registrar and the sockets answer, the first call returns, and a second
    call returns too, leaves every attribute as the first call left it,
    and neither unregisters nor shuts down nor closes anything. *)
Theorem close_idempotent (cfg : config) (env1 env2 : Env) (st : state) :
  let first := close cfg env1 st in
  let second := close cfg env2 (st_of first) in
  res first = Ok tt /\
  res second = Ok tt /\
  st_of second = st_of first /\
  Forall (fun e => releases e = false) (evs second).
Proof.
  intros first second.
  assert (Hc : _closed (st_of first) = true) by apply close_closes.
  subst second. split; [apply close_returns|].
  rewrite (close_closed cfg env2 _ Hc).
  unfold res, st_of, evs, restore_events; simpl.
  split; [done|]. split.
  - unfold first. destruct (_closed st) eqn:Hst.
    + rewrite close_closed by done. simpl. by destruct (kind cfg).
    + rewrite close_open by done. simpl. unfold after_close.
      by destruct (kind cfg).
  - destruct (kind cfg); repeat constructor.
Qed.

(** ** Serving one client *)

Section Session.

Variable cfg : config.
Variable env : Env.

Lemma teardown_run (s : sock) (st : state) :
  teardown env s st = (Ok tt, torn_down s st, [EShutdown s; ESockClose s]).
Proof.
  unfold teardown.
  unfold mbind at 1, M_bind at 1, bind at 1. rewrite shutdown_swallowed.
  unfold sock_close. run_m. reflexivity.
Qed.

(** The session runner does not touch the server's attributes and releases
    nothing itself. *)
Lemma serve_client_run (s : sock) (c : cred) (st : state) :
  exists r t, _serve_client env s c st = (r, st, t)
    /\ finished r /\ Forall (fun e => releases e = false) t.
Proof.
  unfold _serve_client, sock_getpeername, finished. run_m.
  destruct (getpeername env s); simpl.
  - destruct c, (serve_all env s _); simpl;
      eexists _, _; (split; [reflexivity|]); split; eauto; repeat constructor.
  - eexists _, _; (split; [reflexivity|]); split; eauto; repeat constructor.
Qed.

Lemma authenticate_run (s : sock) (st : state) :
  exists k t, authenticate cfg env s st = (Ok (rebound cfg env s, k), st, t)
    /\ Forall (fun e => releases e = false) t.
Proof.
  unfold authenticate, rebound, sock_getpeername.
  destruct (authenticator cfg) as [auth|]; run_m.
  - destruct (getpeername env s); simpl.
    + destruct (auth s) as [[s' c]|[]]; simpl;
        eexists _, _; (split; [reflexivity|]); repeat constructor.
    + eexists _, _; (split; [reflexivity|]); repeat constructor.
  - eexists _, _; (split; [reflexivity|]); repeat constructor.
Qed.

(** Whatever happens before, the call ends by tearing down the socket that
    [sock] names at that point: shutdown attempted, then closed, then
    discarded from the registry. *)
Lemma serve_run (s : sock) (st : state) :
  exists r t,
    _authenticate_and_serve_client cfg env s st =
      (r, torn_down (rebound cfg env s) st, t ++ [EShutdown (rebound cfg env s); ESockClose (rebound cfg env s)])
    /\ finished r /\ Forall (fun e => releases e = false) t.
Proof.
  unfold _authenticate_and_serve_client.
  destruct (authenticate_run s st) as (k & t1 & Ha & Ht1).
  unfold mbind at 1, M_bind at 1, bind at 1. rewrite Ha.
  unfold try_finally.
  destruct k as [c| |e].
  - destruct (serve_client_run (rebound cfg env s) c st) as (r & t2 & Hs & Hr & Ht2).
    unfold try_except, try_except_else. rewrite Hs.
    destruct Hr as [->|[e ->]].
    + simpl. rewrite teardown_run.
      exists (Ok tt), (t1 ++ t2 ++ []). rewrite <- !app_assoc.
      split; [reflexivity|]. split; [by left|].
      rewrite app_nil_r. by apply Forall_app.
    + destruct e as [e|]; run_m; rewrite teardown_run.
      * exists (Raise (Err e)),
          (t1 ++ t2 ++ [ELog "client connection terminated abruptly"]).
        rewrite <- !app_assoc. split; [reflexivity|].
        split; [right; eauto|].
        apply Forall_app; split; [done|].
        apply Forall_app; split; [done|]. repeat constructor.
      * exists (Raise KeyboardInterrupt), (t1 ++ t2 ++ []).
        rewrite <- !app_assoc. split; [reflexivity|].
        split; [right; eauto|].
        rewrite app_nil_r. by apply Forall_app.
  - run_m. rewrite teardown_run. exists (Ok tt), (t1 ++ []).
    rewrite <- !app_assoc. split; [reflexivity|]. split; [by left|].
    by rewrite app_nil_r.
  - run_m. rewrite teardown_run. exists (Raise e), (t1 ++ []).
    rewrite <- !app_assoc. split; [reflexivity|]. split; [right; eauto|].
    by rewrite app_nil_r.
Qed.

(** When the authenticator hands back the socket it was given, or there is
    none, the socket that [accept] registered is the one torn down. *)
Lemma serve_removes_own_socket (s : sock) (st : state) :
  rebound cfg env s = s ->
  let r := _authenticate_and_serve_client cfg env s st in
  finished (res r) /\ (s ∉ clients (st_of r)) /\ (s ∉ open_socks (st_of r)) /\
  exists t, evs r = t ++ [EShutdown s; ESockClose s]
    /\ Forall (fun e => releases e = false) t.
Proof.
  intros Hs r. subst r.
  destruct (serve_run s st) as (r & t & -> & Hr & Ht). rewrite Hs.
  unfold res, st_of, evs, torn_down; run_set.
  split; [done|]. split; [set_solver|]. split; [set_solver|]. eauto.
Qed.

End Session.

(** ** A rejected and a wrapped connection *)

(** C6: when the configured authenticator raises [AuthenticationError] for
    a connection, [_authenticate_and_serve_client] returns normally, the
    session runner is not entered, and the socket has been shut down, closed
    and discarded from the registry. *)
Theorem rejected_connection_torn_down
    (cfg : config) (env : Env) (s : sock) (st : state)
    (auth : sock -> (sock * cred) + error) (a : addr) :
  authenticator cfg = Some auth ->
  getpeername env s = Some a ->
  auth s = inr AuthenticationError ->
  let r := _authenticate_and_serve_client cfg env s st in
  res r = Ok tt /\
  Forall (fun e => is_serve e = false) (evs r) /\
  (exists t, evs r = t ++ [EShutdown s; ESockClose s]) /\
  (s ∉ clients (st_of r)) /\ (s ∉ open_socks (st_of r)).
Proof.
  intros Hauth Hpeer Hrej r. subst r.
  unfold _authenticate_and_serve_client, authenticate, sock_getpeername.
  rewrite Hauth. run_m. rewrite Hpeer. simpl. rewrite Hrej. simpl.
  rewrite teardown_run. unfold torn_down. run_set.
  split; [done|]. split; [repeat constructor|].
  split; [by eexists [_; _; _]|]. split; set_solver.
Qed.

Lemma rejected_connection_torn_down_witness :
  let r := _authenticate_and_serve_client (auth_cfg ThreadedServer reject_all)
             quiet_env 1%positive
             (one_client Py2 (auth_cfg ThreadedServer reject_all) quiet_env) in
  res r = Ok tt /\
  Forall (fun e => is_serve e = false) (evs r) /\
  (exists t, evs r = t ++ [EShutdown 1%positive; ESockClose 1%positive]) /\
  (1%positive ∉ clients (st_of r)) /\ (1%positive ∉ open_socks (st_of r)).
Proof.
  apply (rejected_connection_torn_down (auth_cfg ThreadedServer reject_all)
           quiet_env 1%positive _ reject_all peer); reflexivity.
Defined.

(** C1, at an input where the code departs from it: the authenticator
    returns a new socket object (101) for the raw socket (1) that [accept]
    registered.  The call completes normally, but what it shuts down, closes
    and discards is socket 101; socket 1 is still in the registry and none of
    the three was done to it. *)
Theorem wrapped_socket_stays_registered :
  let cfg := auth_cfg ThreadedServer wrap_channel in
  let st := one_client Py2 cfg quiet_env in
  let r := _authenticate_and_serve_client cfg quiet_env 1%positive st in
  clients st = {[1%positive]} /\
  res r = Ok tt /\
  clients (st_of r) = {[1%positive]} /\
  evs r = [EGetPeerName 1%positive; EAuthenticate 1%positive;
           ELog "authenticated successfully";
           EGetPeerName 101%positive; ELog "welcome (with credentials)";
           EServe 101%positive (Some "alice"%string); ELog "goodbye";
           EShutdown 101%positive; ESockClose 101%positive].
Proof. vm_compute. repeat split; reflexivity. Qed.

(** ** Stability through the ways of composing statements *)

Section Stable.

Context (R : relation state) `{!PreOrder R}.

Lemma stable_ret {A} (a : A) : stable R (ret a).
Proof. intros st. reflexivity. Qed.

Lemma stable_raise {A} (e : exn) : stable R (@raise A e).
Proof. intros st. reflexivity. Qed.

Lemma stable_blocked {A} : stable R (@blocked A).
Proof. intros st. reflexivity. Qed.

Lemma stable_emit (e : event) : stable R (emit e).
Proof. intros st. reflexivity. Qed.

Lemma stable_log (msg : string) : stable R (log msg).
Proof. intros st. reflexivity. Qed.

Lemma stable_get : stable R get.
Proof. intros st. reflexivity. Qed.

Lemma stable_modify (f : state -> state) :
  (forall st, R st (f st)) -> stable R (modify f).
Proof. intros Hf st. apply Hf. Qed.

Lemma stable_bind {A B} (m : M A) (k : A -> M B) :
  stable R m -> (forall a, stable R (k a)) -> stable R (m ≫= k).
Proof.
  intros Hm Hk st. specialize (Hm st).
  unfold mbind, M_bind, bind, st_of in *.
  destruct (m st) as [[[a|e|c|] st1] t1]; simpl in *; try exact Hm.
  specialize (Hk a st1). destruct (k a st1) as [[r st2] t2]; simpl in *.
  by etransitivity.
Qed.

Lemma stable_try_except_else {A B} (m : M A) (h : exn -> M B) (els : A -> M B) :
  stable R m -> (forall e, stable R (h e)) -> (forall a, stable R (els a)) ->
  stable R (try_except_else m h els).
Proof.
  intros Hm Hh He st. specialize (Hm st).
  unfold try_except_else, st_of in *.
  destruct (m st) as [[[a|e|c|] st1] t1]; simpl in *; try exact Hm.
  - specialize (He a st1). destruct (els a st1) as [[r st2] t2]; simpl in *.
    by etransitivity.
  - specialize (Hh e st1). destruct (h e st1) as [[r st2] t2]; simpl in *.
    by etransitivity.
Qed.

Lemma stable_try_except {A} (m : M A) (h : exn -> M A) :
  stable R m -> (forall e, stable R (h e)) -> stable R (try_except m h).
Proof.
  intros Hm Hh. apply stable_try_except_else; auto using @stable_ret.
Qed.

Lemma stable_try_finally {A} (m : M A) (fin : M unit) :
  stable R m -> stable R fin -> stable R (try_finally m fin).
Proof.
  intros Hm Hf st. specialize (Hm st).
  unfold try_finally, st_of in *.
  destruct (m st) as [[[a|e|c|] st1] t1]; simpl in *; try exact Hm;
    specialize (Hf st1); destruct (fin st1) as [[[[]|e'|c'|] st2] t2];
    simpl in *; by etransitivity.
Qed.

Lemma stable_for_each {A} (xs : list A) (body : A -> M unit) :
  (forall x, stable R (body x)) -> stable R (for_each xs body).
Proof.
  intros Hb. induction xs as [|x xs IH]; simpl.
  - apply stable_ret.
  - apply stable_bind; auto.
Qed.

Lemma stable_option_raise (o : option error) : stable R (option_raise o).
Proof. destruct o; [apply stable_raise | apply stable_ret]. Qed.

Lemma stable_except_Exception_pass (e : exn) : stable R (except_Exception_pass e).
Proof. destruct e; [apply stable_ret | apply stable_raise]. Qed.

End Stable.

Create HintDb stable discriminated.
#[export] Hint Resolve stable_ret stable_raise stable_blocked stable_emit
  stable_log stable_get stable_bind stable_try_except_else stable_try_except
  stable_try_finally stable_for_each stable_option_raise
  stable_except_Exception_pass : stable.

(** ** Frames of the methods *)

#[export] Instance same_flags_preorder : PreOrder same_flags.
Proof.
  split.
  - by intros st.
  - intros x y z [? ?] [? ?]. split; congruence.
Qed.

#[export] Instance same_tape_preorder : PreOrder same_tape.
Proof.
  split.
  - by intros st.
  - intros x y z [[? ?] ?] [[? ?] ?]. repeat split; congruence.
Qed.

Lemma same_tape_flags st st' : same_tape st st' -> same_flags st st'.
Proof. by intros [? _]. Qed.

#[export] Instance polled_preorder : PreOrder polled.
Proof.
  split.
  - intros st. by repeat split.
  - intros x y z (?&?&?&?&?&?) (?&?&?&?&?&?).
    repeat split; try congruence. set_solver.
Qed.

Lemma polled_same_flags st st' : polled st st' -> same_flags st st'.
Proof. intros (?&?&_). by split. Qed.

Lemma stable_weaken (R R' : relation state) {A} (m : M A) :
  (forall x y, R x y -> R' x y) -> stable R m -> stable R' m.
Proof. intros HR Hm st. apply HR, Hm. Qed.

Section Frames.

Variable py : py_version.
Variable cfg : config.
Variable env : Env.

Lemma listener_accept_polled : stable polled listener_accept.
Proof.
  intros st. unfold listener_accept. run_m.
  destruct (listener st) eqn:Hl; simpl; try reflexivity.
  destruct (incoming st) as [|[s a|e] rest]; simpl; try reflexivity.
  - repeat split; simpl; auto. set_solver.
  - by repeat split.
Qed.

Lemma exc_getitem0_stable (R : relation state) `{!PreOrder R} (n : Z) :
  stable R (exc_getitem0 py n).
Proof. unfold exc_getitem0. destruct py; auto with stable. Qed.

Lemma accept_retry_polled (n : nat) : stable polled (accept_retry py n).
Proof.
  induction n as [|n IH]; simpl.
  - apply stable_blocked; apply _.
  - apply stable_try_except_else; try apply _.
    + apply listener_accept_polled.
    + intros [[]|]; auto with stable typeclass_instances.
      apply stable_bind; try apply _.
      * apply exc_getitem0_stable; apply _.
      * intros code. destruct (code =? EINTR)%Z; auto with stable typeclass_instances.
    + intros a. apply stable_ret; apply _.
Qed.

Lemma sock_close_tape (s : sock) : stable same_tape (sock_close s).
Proof. intros st. by repeat split. Qed.

Lemma listener_close_tape : stable same_tape listener_close.
Proof. intros st. by repeat split. Qed.

Lemma signal_signal_tape (h : handler) : stable same_tape (signal_signal h).
Proof. intros st. by repeat split. Qed.

Lemma serve_tape (s : sock) :
  stable same_tape (_authenticate_and_serve_client cfg env s).
Proof.
  intros st. destruct (serve_run cfg env s st) as (r & t & -> & _).
  by repeat split.
Qed.

Lemma accept_method_tape (s : sock) : stable same_tape (_accept_method cfg env s).
Proof.
  unfold _accept_method, ThreadedServer_accept_method, ForkingServer_accept_method.
  destruct (kind cfg); auto with stable typeclass_instances.
  apply stable_bind; try apply _; auto with stable typeclass_instances.
  intros _. destruct (os_fork env s =? 0)%Z; [|apply sock_close_tape].
  apply stable_try_finally; try apply _.
  - apply stable_try_except_else; try apply _; auto with stable typeclass_instances.
    apply stable_bind; try apply _; auto with stable typeclass_instances. intros _.
    apply stable_bind; try apply _; [apply signal_signal_tape|]. intros _.
    apply stable_bind; try apply _; [apply listener_close_tape|]. intros _.
    apply stable_bind; try apply _; [by intros st; repeat split|]. intros _.
    apply serve_tape.
  - apply stable_bind; try apply _; auto with stable typeclass_instances.
    intros _ st. by repeat split.
Qed.

Lemma serve_flags (s : sock) :
  stable same_flags (_authenticate_and_serve_client cfg env s).
Proof. eapply stable_weaken; [apply same_tape_flags | apply serve_tape]. Qed.

Lemma accept_flags : stable same_flags (accept py cfg env).
Proof.
  unfold accept.
  apply stable_bind; try apply _; auto with stable typeclass_instances.
  intros st0. apply stable_bind; try apply _.
  - eapply stable_weaken; [apply polled_same_flags | apply accept_retry_polled].
  - intros [s a].
    apply stable_bind; try apply _; auto with stable typeclass_instances. intros _.
    apply stable_bind; try apply _; auto with stable typeclass_instances. intros _.
    apply stable_bind; try apply _; [by intros st; split|]. intros _.
    eapply stable_weaken; [apply same_tape_flags | apply accept_method_tape].
Qed.

End Frames.

(** ** Polling the listener *)

Section Accept.

Variable py : py_version.
Variable cfg : config.
Variable env : Env.

(** The bound on the turns of the loop is generous: any larger one gives
    the same run. *)
Lemma accept_retry_enough (n m : nat) (st : state) :
  (length (incoming st) < n)%nat -> (length (incoming st) < m)%nat ->
  accept_retry py n st = accept_retry py m st.
Proof.
  revert m st. induction n as [|n IH]; intros m st Hn Hm; [lia|].
  destruct m as [|m]; [lia|].
  simpl. unfold try_except_else, listener_accept. run_m.
  destruct (listener st) eqn:Hl; simpl.
  - unfold exc_getitem0. by destruct py.
  - destruct (incoming st) as [|[s a|e] rest] eqn:Hi; simpl; try reflexivity.
    simpl in Hn, Hm.
    assert (Hrec : accept_retry py n (set_incoming rest st)
                   = accept_retry py m (set_incoming rest st))
      by (apply IH; simpl; lia).
    destruct e as [[]|]; simpl; try reflexivity.
    + by rewrite Hrec.
    + unfold exc_getitem0. destruct py; run_m; try reflexivity.
      destruct (errno =? EINTR)%Z; simpl; [by rewrite Hrec | reflexivity].
  - unfold exc_getitem0. by destruct py.
Qed.

(** A closed listener: [accept] fails at once and changes nothing. *)
Lemma accept_retry_closed (n : nat) (st : state) :
  listener st = LClosed ->
  accept_retry py (S n) st = (Raise (refusal py), st, []).
Proof.
  intros Hl. simpl. unfold try_except_else, listener_accept, refusal. run_m.
  rewrite Hl. simpl. unfold exc_getitem0. by destruct py.
Qed.

Lemma accept_closed (st : state) :
  listener st = LClosed -> accept py cfg env st = (Raise (refusal py), st, []).
Proof.
  intros Hl. unfold accept.
  unfold mbind at 1, M_bind at 1, bind at 1, get at 1.
  unfold mbind at 1, M_bind at 1, bind at 1.
  by rewrite accept_retry_closed.
Qed.

End Accept.

(** With [ex[0]] meaning [ex.args[0]] (Python 2) the loop does what it is
    meant to: timeouts and [EINTR] are passed over without a trace, the first
    other outcome decides, and a socket error comes out as [EOFError]. *)
Lemma accept_retry_py2 (pre rest : list listen_outcome) (o : listen_outcome)
    (st : state) (b : Z) (n : nat) :
  listener st = Listening b ->
  incoming st = pre ++ o :: rest ->
  forallb retryable pre = true ->
  retryable o = false ->
  (length pre < n)%nat ->
  accept_retry Py2 n st = (settled o, delivered o rest st, []).
Proof.
  revert st n. induction pre as [|p pre IH]; intros st n Hl Hi Hpre Ho Hn;
    (destruct n as [|n]; [simpl in Hn; lia|]);
    simpl; unfold try_except_else, listener_accept; run_m; rewrite Hl, Hi; simpl.
  - destruct o as [s a|[[]|]]; simpl in *; try done.
    change ((errno =? EINTR)%Z = false) in Ho. by rewrite Ho.
  - apply andb_true_iff in Hpre as [Hp Hpre].
    assert (Hrec : accept_retry Py2 n (set_incoming (pre ++ o :: rest) st)
                   = (settled o, delivered o rest st, [])).
    { rewrite (IH (set_incoming (pre ++ o :: rest) st) n); try done.
      simpl in Hn. lia. }
    destruct p as [s a|[[]|]]; simpl in *; try done.
    + by rewrite Hrec.
    + change ((errno =? EINTR)%Z = true) in Hp. rewrite Hp. by rewrite Hrec.
Qed.

(** C5, at inputs where the code departs from it.  On Python 3 an exception
    object cannot be subscripted, so [ex[0]] at line 80 raises [TypeError]
    inside the handler: an interrupted [accept] is not retried (the client
    waiting behind it is not accepted), and a listener error comes out as
    [TypeError], not [EOFError], which [start] does not catch. *)
Theorem accept_subscript_fails_py3 :
  let cfg := plain_cfg ThreadedServer false in
  let interrupted := started cfg [LFail (Err (SocketError EINTR)); LConn 1%positive peer] in
  let refused := started cfg [LFail (Err (SocketError EBADF))] in
  accept Py3 cfg quiet_env interrupted
    = (Raise (Err TypeError), started cfg [LConn 1%positive peer], []) /\
  res (accept Py3 cfg quiet_env refused) = Raise (Err TypeError) /\
  res (start Py3 cfg quiet_env (Server_init [LFail (Err (SocketError EBADF))] HandleSigchld))
    = Raise (Err TypeError).
Proof. vm_compute. repeat split; reflexivity. Qed.

(** The same inputs under Python 2: the interrupted call is retried and the
    client accepted, the listener error ends [start] normally. *)
Example accept_same_inputs_py2 :
  let cfg := plain_cfg ThreadedServer false in
  let interrupted := started cfg [LFail (Err (SocketError EINTR)); LConn 1%positive peer] in
  res (accept Py2 cfg quiet_env interrupted) = Ok tt /\
  clients (st_of (accept Py2 cfg quiet_env interrupted)) = {[1%positive]} /\
  res (start Py2 cfg quiet_env (Server_init [LFail (Err (SocketError EBADF))] HandleSigchld))
    = Ok tt.
Proof. vm_compute. repeat split; reflexivity. Qed.

(** ** Invariants of the reachable states *)

Section Invariants.

Variable py : py_version.
Variable cfg : config.
Variable env : Env.

Lemma startup_run (st : state) :
  startup cfg st =
    match listener st with
    | LClosed => (Raise (Err (SocketError EBADF)), st, [])
    | _ =>
        (Ok tt, set_active true (set_listener (Listening (backlog cfg)) st),
         [EListen (backlog cfg); ELog "server started"] ++
         (if auto_register cfg then [ESpawnHeartbeat] else []) ++ [ESetTimeout])
    end.
Proof.
  unfold startup, listener_listen. run_m.
  destruct (listener st); simpl; try reflexivity;
    destruct (auto_register cfg); reflexivity.
Qed.

(** The socket that the loop of [accept] returns is open. *)
Lemma accept_retry_opens (n : nat) (st : state) (s : sock) (a : addr) :
  res (accept_retry py n st) = Ok (s, a) ->
  s ∈ open_socks (st_of (accept_retry py n st)).
Proof.
  revert st. induction n as [|n IH]; intros st; [done|].
  simpl. unfold try_except_else, listener_accept. run_m.
  destruct (listener st); simpl.
  - unfold exc_getitem0. by destruct py.
  - destruct (incoming st) as [|[s' a'|e] rest]; simpl; try done.
    + intros [= -> ->]. set_solver.
    + specialize (IH (set_incoming rest st)).
      destruct e as [[]|]; simpl; try done.
      * destruct (accept_retry py n (set_incoming rest st)) as [[r st2] t2].
        exact IH.
      * unfold exc_getitem0. destruct py; run_m; try done.
        destruct (errno =? EINTR)%Z; simpl; try done.
        destruct (accept_retry _ n (set_incoming rest st)) as [[r st2] t2].
        exact IH.
  - unfold exc_getitem0. by destruct py.
Qed.

Lemma perform_closed_inv (a : action) (st : state) :
  closed_inv st -> closed_inv (st_of (perform py cfg env a st)).
Proof.
  intros Hinv. destruct a as [|s|]; simpl.
  - intros Hc. pose proof (accept_flags py cfg env st) as [Hc' Ha'].
    rewrite Hc in Hc'. destruct (Hinv (eq_sym Hc')) as (Ha & Hcl & Hl).
    rewrite accept_closed by done. by apply Hinv.
  - destruct (serve_run cfg env s st) as (r & t & -> & _).
    unfold st_of, torn_down; run_set. intros Hc.
    destruct (Hinv Hc) as (Ha & Hcl & Hl). rewrite Hcl.
    repeat split; auto. set_solver.
  - intros _. destruct (_closed st) eqn:Hc.
    + destruct (Hinv Hc) as (Ha & Hcl & Hl).
      rewrite close_closed by done. unfold st_of; simpl.
      by destruct (kind cfg).
    + rewrite close_open by done. unfold st_of, after_close; simpl.
      by destruct (kind cfg).
Qed.

Lemma startup_closed_inv (st : state) :
  closed_inv st -> closed_inv (st_of (startup cfg st)).
Proof.
  intros Hinv. rewrite startup_run.
  destruct (listener st) eqn:Hl; unfold st_of; simpl; try done.
  - intros Hc. destruct (Hinv Hc) as (_ & _ & Hl'). congruence.
  - intros Hc. destruct (Hinv Hc) as (_ & _ & Hl'). congruence.
Qed.

Lemma reachable_closed_inv (st : state) :
  reachable py cfg env st -> closed_inv st.
Proof.
  induction 1 as [tape h|st _ IH|st a _ IH].
  - by intros Hc.
  - by apply startup_closed_inv.
  - by apply perform_closed_inv.
Qed.

Lemma reachable_close_complete (st : state) :
  reachable py cfg env st -> close_complete st.
Proof.
  intros Hr Hc. by destruct (reachable_closed_inv st Hr Hc) as (_ & ? & ?).
Qed.

(** [accept] is its loop followed by lines 87-90. *)
Lemma accept_split :
  accept py cfg env =
    (st ← get;
     '(s, _) ← accept_retry py (S (length (incoming st)));
     register_and_dispatch cfg env s).
Proof. reflexivity. Qed.

#[local] Instance kept_preorder : PreOrder kept.
Proof.
  split.
  - intros st. by repeat split.
  - intros x y z (H1 & H2 & H3) (H4 & H5 & H6).
    repeat split; [congruence|auto|set_solver].
Qed.

Lemma serve_kept (s : sock) : stable kept (_authenticate_and_serve_client cfg env s).
Proof.
  intros st. destruct (serve_run cfg env s st) as (r & t & -> & _).
  unfold st_of, torn_down; run_set. repeat split; [done|]. set_solver.
Qed.

Lemma accept_method_kept (s : sock) : stable kept (_accept_method cfg env s).
Proof.
  unfold _accept_method, ThreadedServer_accept_method, ForkingServer_accept_method.
  destruct (kind cfg); auto with stable typeclass_instances.
  apply stable_bind; try apply _; auto with stable typeclass_instances.
  intros _. destruct (os_fork env s =? 0)%Z; [|by intros st; repeat split].
  apply stable_try_finally; try apply _.
  - apply stable_try_except_else; try apply _; auto with stable typeclass_instances.
    apply stable_bind; try apply _; auto with stable typeclass_instances. intros _.
    apply stable_bind; try apply _; [by intros st; repeat split|]. intros _.
    apply stable_bind; try apply _; [by intros st; repeat split|]. intros _.
    apply stable_bind; try apply _; [|intros _; apply serve_kept].
    intros st. unfold st_of; simpl. repeat split; [done|]. set_solver.
  - apply stable_bind; try apply _; auto with stable typeclass_instances.
    intros _ st. by repeat split.
Qed.

(** Lines 87-90 add at most their own socket to the registry, and reopen
    nothing. *)
Lemma register_and_dispatch_late (s : sock) (st : state) :
  let st' := st_of (register_and_dispatch cfg env s st) in
  _closed st' = _closed st /\
  (listener st = LClosed -> listener st' = LClosed) /\
  clients st' ⊆ {[s]} ∪ clients st.
Proof.
  unfold register_and_dispatch, mbind, M_bind, bind, emit, log, modify.
  cbn -[_accept_method].
  pose proof (accept_method_kept s (set_clients ({[s]} ∪ clients st) st))
    as (H1 & H2 & H3).
  unfold st_of in *.
  destruct (_accept_method cfg env s _) as [[r st2] t2]; simpl in *.
  by repeat split.
Qed.

(** On a closed server with a closed listener no step reopens anything, and
    only an accept in flight adds to the registry. *)
Lemma do_step_after_close (x : step) (st : state) :
  _closed st = true -> listener st = LClosed ->
  let st' := st_of (do_step py cfg env x st) in
  _closed st' = true /\ listener st' = LClosed /\
  clients st' ⊆ clients st ∪ registered_late [x].
Proof.
  intros Hc Hl. destruct x as [[|s|]| |s]; simpl.
  - rewrite accept_closed by done. unfold st_of; simpl.
    repeat split; [done..|set_solver].
  - destruct (serve_run cfg env s st) as (r & t & -> & _).
    unfold st_of, torn_down; run_set. repeat split; [done..|set_solver].
  - rewrite close_closed by done. unfold st_of; simpl.
    destruct (kind cfg); simpl; repeat split; try done; set_solver.
  - rewrite startup_run, Hl. unfold st_of; simpl.
    repeat split; [done..|set_solver].
  - destruct (register_and_dispatch_late s st) as (H1 & H2 & H3).
    repeat split; [congruence|auto|set_solver].
Qed.

Lemma run_steps_after_close (steps : list step) (st : state) :
  _closed st = true -> listener st = LClosed ->
  let st' := run_steps py cfg env steps st in
  _closed st' = true /\ listener st' = LClosed /\
  clients st' ⊆ clients st ∪ registered_late steps.
Proof.
  revert st. induction steps as [|x steps IH]; intros st Hc Hl; simpl.
  - repeat split; [done..|set_solver].
  - destruct (do_step_after_close x st Hc Hl) as (H1 & H2 & H3).
    destruct (IH _ H1 H2) as (I1 & I2 & I3). simpl in *.
    repeat split; [done..|].
    destruct x as [a| |s]; simpl in *; set_solver.
Qed.

End Invariants.

(** The state that [closed_under_accept] builds: closed, and client 1 in the
    registry. *)
Example closed_under_accept_state :
  let st := closed_under_accept Py2 (plain_cfg ThreadedServer false) quiet_env in
  _closed st = true /\ listener st = LClosed /\ clients st = {[1%positive]}.
Proof. vm_compute. repeat split; reflexivity. Qed.

(** C4 fails as worded: a server that was closed while its [accept()] had a
    client in hand is closed with that client's socket in the registry; a
    [close()] on it returns at line 51 and the registry is not empty. *)
Lemma close_leaves_socket_registered_late :
  ~ registry_empty_after_close (plain_cfg ThreadedServer false) quiet_env
      (closed_under_accept Py2 (plain_cfg ThreadedServer false) quiet_env).
Proof.
  unfold registry_empty_after_close. intros H. specialize (H eq_refl).
  apply (f_equal elements) in H. vm_compute in H. discriminate H.
Qed.

(** C4, amended: on every state that is not closed, or is closed with an
    empty registry and a closed listener, [close()] returns, the client
    registry is then empty and the listening socket closed, however many
    sessions were in flight.  Whatever happens afterwards (whole calls of
    startup, accept, a session's end, close, and accepts in flight that go on
    to register the socket they had taken) the listener stays closed and
    [accept()] raises without taking a connection or changing anything; the
    registry holds no socket but those that accepts in flight registered, so
    it stays empty when there was none. *)
Theorem close_empties_registry
    (py : py_version) (cfg : config) (env : Env) (st : state) :
  close_complete st ->
  let st' := st_of (close cfg env st) in
  res (close cfg env st) = Ok tt /\
  clients st' = ∅ /\ listener st' = LClosed /\
  forall steps : list step,
    let st'' := run_steps py cfg env steps st' in
    listener st'' = LClosed /\
    (exists e, accept py cfg env st'' = (Raise e, st'', [])) /\
    clients st'' ⊆ registered_late steps /\
    (registered_late steps = ∅ -> clients st'' = ∅).
Proof.
  intros Hinv st'.
  assert (Hshut : _closed st' = true /\ clients st' = ∅ /\ listener st' = LClosed).
  { subst st'. destruct (_closed st) eqn:Hc.
    - destruct (Hinv Hc) as (Hcl & Hl).
      rewrite close_closed by done. unfold st_of; simpl.
      by destruct (kind cfg).
    - rewrite close_open by done. unfold st_of, after_close; simpl.
      by destruct (kind cfg). }
  destruct Hshut as (Hc & Hcl & Hl).
  split; [apply close_returns|]. split; [done|]. split; [done|].
  intros steps st''.
  destruct (run_steps_after_close py cfg env steps st' Hc Hl) as (Hc' & Hl' & Hsub).
  fold st'' in Hc', Hl', Hsub. rewrite Hcl in Hsub.
  split; [done|]. split; [eexists; by apply accept_closed|].
  split; [set_solver|]. intros Hnone. rewrite Hnone in Hsub. set_solver.
Qed.

(** A server with a session in flight, and one that is closed already. *)
Lemma close_empties_registry_witness :
  let cfg := plain_cfg ThreadedServer true in
  (let st := one_client Py2 cfg quiet_env in
   let st' := st_of (close cfg quiet_env st) in
   res (close cfg quiet_env st) = Ok tt /\
   clients st' = ∅ /\ listener st' = LClosed /\
   forall steps : list step,
     let st'' := run_steps Py2 cfg quiet_env steps st' in
     listener st'' = LClosed /\
     (exists e, accept Py2 cfg quiet_env st'' = (Raise e, st'', [])) /\
     clients st'' ⊆ registered_late steps /\
     (registered_late steps = ∅ -> clients st'' = ∅)) /\
  (let st := st_of (close cfg quiet_env (one_client Py2 cfg quiet_env)) in
   let st' := st_of (close cfg quiet_env st) in
   res (close cfg quiet_env st) = Ok tt /\
   clients st' = ∅ /\ listener st' = LClosed /\
   forall steps : list step,
     let st'' := run_steps Py2 cfg quiet_env steps st' in
     listener st'' = LClosed /\
     (exists e, accept Py2 cfg quiet_env st'' = (Raise e, st'', [])) /\
     clients st'' ⊆ registered_late steps /\
     (registered_late steps = ∅ -> clients st'' = ∅)).
Proof.
  split.
  - apply (close_empties_registry Py2 (plain_cfg ThreadedServer true) quiet_env).
    intros Hc. vm_compute in Hc. discriminate Hc.
  - apply (close_empties_registry Py2 (plain_cfg ThreadedServer true) quiet_env).
    intros _. split; reflexivity.
Defined.

(** ** The first [close()] *)

Lemma close_events_elem (l : list positive) (c : positive) :
  c ∈ l -> EShutdown c ∈ close_events l /\ ESockClose c ∈ close_events l.
Proof.
  induction 1 as [c l|c d l _ [IH1 IH2]]; simpl.
  - split; repeat first [apply list_elem_of_here | apply list_elem_of_further].
  - split; by do 2 apply list_elem_of_further.
Qed.

Lemma close_events_quiet (l : list positive) :
  Forall (fun e => is_registrar e = false) (close_events l).
Proof. induction l; simpl; repeat constructor; done. Qed.

(** C8 fails as worded: a server constructed with [auto_register = False]
    makes no registrar call when it is closed for the first time. *)
Lemma close_without_auto_register_skips_unregister :
  ~ first_close_unregisters (plain_cfg ThreadedServer false) quiet_env
      (one_client Py2 (plain_cfg ThreadedServer false) quiet_env).
Proof.
  unfold first_close_unregisters. intros H.
  specialize (H eq_refl). vm_compute in H.
  repeat (apply elem_of_cons in H as [H|H]; [discriminate H|]).
  by apply elem_of_nil in H.
Qed.

(** C8, amended: the first [close()] returns normally whatever the registrar
    and the sockets answer.  With [auto_register] set it calls
    [registrar.unregister(port)], and logs when that raises; with
    [auto_register] unset it makes no registrar call.  In both cases it goes on
    to close the listening socket, to shut down and close every socket of the
    registry, and to clear the registry. *)
Theorem first_close_releases_everything
    (cfg : config) (env : Env) (st : state) :
  _closed st = false ->
  let r := close cfg env st in
  res r = Ok tt /\
  (auto_register cfg = true ->
     EUnregister (port cfg) ∈ evs r /\
     (unregister_fails env (port cfg) <> None ->
        ELog "error unregistering services" ∈ evs r)) /\
  (auto_register cfg = false -> Forall (fun e => is_registrar e = false) (evs r)) /\
  EListenerClose ∈ evs r /\
  (forall c, c ∈ clients st ->
     EShutdown c ∈ evs r /\ ESockClose c ∈ evs r /\ c ∉ open_socks (st_of r)) /\
  clients (st_of r) = ∅ /\ listener (st_of r) = LClosed /\
  _closed (st_of r) = true /\ active (st_of r) = false.
Proof.
  intros Hc r. subst r. rewrite close_open by done.
  unfold res, st_of, evs; simpl.
  split; [done|]. split; [|split; [|split; [|split]]].
  - intros Hauto. unfold unregister_events. rewrite Hauto. split.
    + apply list_elem_of_here.
    + intros Hf. destruct (unregister_fails env (port cfg)); [|done].
      apply list_elem_of_further, list_elem_of_here.
  - intros Hauto. unfold unregister_events. rewrite Hauto. simpl.
    repeat constructor. apply Forall_app. split; [apply close_events_quiet|].
    unfold restore_events. destruct (kind cfg); repeat constructor.
  - apply elem_of_app. right. apply list_elem_of_here.
  - intros c Hin.
    assert (Hel : c ∈ elements (clients st)) by by apply elem_of_elements.
    destruct (close_events_elem _ _ Hel) as [H1 H2].
    split; [|split].
    + apply elem_of_app. right. do 2 apply list_elem_of_further.
      apply elem_of_app. by left.
    + apply elem_of_app. right. do 2 apply list_elem_of_further.
      apply elem_of_app. by left.
    + unfold after_close, closed_state. destruct (kind cfg); simpl; set_solver.
  - unfold after_close, closed_state. by destruct (kind cfg).
Qed.

Lemma first_close_releases_everything_witness :
  let cfg := plain_cfg ThreadedServer true in
  let st := one_client Py2 cfg quiet_env in
  let r := close cfg quiet_env st in
  res r = Ok tt /\
  (auto_register cfg = true ->
     EUnregister (port cfg) ∈ evs r /\
     (unregister_fails quiet_env (port cfg) <> None ->
        ELog "error unregistering services" ∈ evs r)) /\
  (auto_register cfg = false -> Forall (fun e => is_registrar e = false) (evs r)) /\
  EListenerClose ∈ evs r /\
  (forall c, c ∈ clients st ->
     EShutdown c ∈ evs r /\ ESockClose c ∈ evs r /\ c ∉ open_socks (st_of r)) /\
  clients (st_of r) = ∅ /\ listener (st_of r) = LClosed /\
  _closed (st_of r) = true /\ active (st_of r) = false.
Proof.
  apply (first_close_releases_everything (plain_cfg ThreadedServer true) quiet_env).
  reflexivity.
Defined.

(** ** The accept loop of [start] *)

Section Start.

Variable py : py_version.
Variable cfg : config.
Variable env : Env.

(** A turn of the loop that returns a socket has taken an outcome from the
    listener. *)
Lemma accept_retry_consumes (n : nat) (st : state) (s : sock) (a : addr) :
  res (accept_retry py n st) = Ok (s, a) ->
  (length (incoming (st_of (accept_retry py n st))) < length (incoming st))%nat.
Proof.
  revert st. induction n as [|n IH]; intros st; [done|].
  simpl. unfold try_except_else, listener_accept. run_m.
  destruct (listener st); simpl.
  - unfold exc_getitem0. by destruct py.
  - destruct (incoming st) as [|[s' a'|e] rest]; simpl; try done.
    + intros _. lia.
    + specialize (IH (set_incoming rest st)). simpl in IH.
      destruct e as [[]|]; simpl; try done.
      * destruct (accept_retry py n (set_incoming rest st)) as [[r st2] t2].
        intros Hr. specialize (IH Hr). simpl in *. lia.
      * unfold exc_getitem0. destruct py; run_m; try done.
        destruct (errno =? EINTR)%Z; simpl; try done.
        destruct (accept_retry _ n (set_incoming rest st)) as [[r st2] t2].
        intros Hr. specialize (IH Hr). simpl in *. lia.
  - unfold exc_getitem0. by destruct py.
Qed.

(** [accept] in one piece: the loop, then registration and hand-over. *)
Lemma accept_unfold (st : state) :
  accept py cfg env st =
    match accept_retry py (S (length (incoming st))) st with
    | (Ok (s, _), st1, t1) =>
        let '(r, st2, t2) :=
          _accept_method cfg env s (set_clients ({[s]} ∪ clients st1) st1) in
        (r, st2, t1 ++ ESetBlocking s :: ELog "accepted" :: t2)
    | (Raise e, st1, t1) => (Raise e, st1, t1)
    | (Exited c, st1, t1) => (Exited c, st1, t1)
    | (Blocked, st1, t1) => (Blocked, st1, t1)
    end.
Proof.
  unfold accept, mbind, M_bind, bind, get, emit, log, modify.
  cbn -[accept_retry _accept_method].
  destruct (accept_retry py (S (length (incoming st))) st)
    as [[[[s a]|e|c|] st1] t1]; try reflexivity.
  cbn -[_accept_method].
  by destruct (_accept_method cfg env s _) as [[r st2] t2].
Qed.

Lemma accept_consumes (st : state) :
  res (accept py cfg env st) = Ok tt ->
  (length (incoming (st_of (accept py cfg env st))) < length (incoming st))%nat.
Proof.
  rewrite accept_unfold.
  pose proof (accept_retry_consumes (S (length (incoming st))) st) as Hc.
  destruct (accept_retry py (S (length (incoming st))) st)
    as [[[[s a]|e|c|] st1] t1]; try done.
  specialize (Hc s a eq_refl). unfold st_of in Hc; simpl in Hc.
  pose proof (accept_method_tape cfg env s
                (set_clients ({[s]} ∪ clients st1) st1)) as [_ Ht].
  unfold st_of in Ht.
  destruct (_accept_method cfg env s _) as [[r st2] t2]; simpl in *.
  intros _. unfold st_of; simpl. rewrite Ht. exact Hc.
Qed.

(** The bound on the turns of [while True: self.accept()] is generous as
    well. *)
Lemma accept_forever_enough (n m : nat) (st : state) :
  (length (incoming st) < n)%nat -> (length (incoming st) < m)%nat ->
  accept_forever py cfg env n st = accept_forever py cfg env m st.
Proof.
  revert m st. induction n as [|n IH]; intros m st Hn Hm; [lia|].
  destruct m as [|m]; [lia|].
  simpl. unfold mbind, M_bind, bind.
  pose proof (accept_consumes st) as Hc. unfold res, st_of in Hc.
  destruct (accept py cfg env st) as [[[[]|e|c|] st1] t1]; try done.
  simpl in Hc. specialize (Hc eq_refl).
  rewrite (IH m st1) by lia. reflexivity.
Qed.

(** The loop never ends normally. *)
Lemma accept_forever_no_return (n : nat) (st : state) :
  res (accept_forever py cfg env n st) <> Ok tt.
Proof.
  revert st. induction n as [|n IH]; intros st; [done|].
  simpl. unfold mbind, M_bind, bind, res.
  destruct (accept py cfg env st) as [[[[]|e|c|] st1] t1]; try done.
  specialize (IH st1). unfold res in IH.
  by destruct (accept_forever py cfg env n st1) as [[r st2] t2].
Qed.

End Start.

(** C9: when the accept loop of [start()] ends by [EOFError] or by
    [KeyboardInterrupt], [start()] returns normally; the last thing it does
    is [close()], run on the state the loop left, so the server ends
    closed. *)
Theorem start_clean_shutdown
    (py : py_version) (cfg : config) (env : Env) (st : state) (e : exn) :
  res (startup cfg st) = Ok tt ->
  let st1 := st_of (startup cfg st) in
  let loop := accept_forever py cfg env (S (length (incoming st1))) st1 in
  res loop = Raise e ->
  e = Err EOFError \/ e = KeyboardInterrupt ->
  let r := start py cfg env st in
  res r = Ok tt /\
  st_of r = st_of (close cfg env (st_of loop)) /\
  _closed (st_of r) = true /\
  exists t, evs r = t ++ ELog "server has terminated" :: evs (close cfg env (st_of loop)).
Proof.
  intros Hs st1 loop Hl He r. subst r loop st1.
  unfold start, try_finally, try_except, try_except_else, mbind, M_bind, bind, get.
  unfold res, st_of, evs in *.
  destruct (startup cfg st) as [[r1 st1] t1].
  cbn -[accept_forever close] in *. subst r1.
  destruct (accept_forever py cfg env (S (length (incoming st1))) st1)
    as [[r2 st2] t2].
  cbn -[close] in *. subst r2.
  pose proof (close_returns cfg env st2) as Hr.
  pose proof (close_closes cfg env st2) as Hc.
  unfold res, st_of in Hr, Hc.
  destruct He as [-> | ->]; unfold ret, emit, log; cbn -[close];
    destruct (close cfg env st2) as [[r3 st3] t3]; cbn in *; subst r3;
    (split; [done|]); (split; [done|]); (split; [done|]).
  - exists (t1 ++ t2). by rewrite <- !app_assoc.
  - exists (t1 ++ t2 ++ [EPrint; ELog "keyboard interrupt!"]).
    by rewrite <- !app_assoc.
Qed.

Lemma start_clean_shutdown_witness :
  let cfg := plain_cfg ThreadedServer true in
  let st := Server_init [LConn 1%positive peer; LFail KeyboardInterrupt] HandleSigchld in
  let st1 := st_of (startup cfg st) in
  let loop := accept_forever Py2 cfg quiet_env (S (length (incoming st1))) st1 in
  let r := start Py2 cfg quiet_env st in
  res r = Ok tt /\
  st_of r = st_of (close cfg quiet_env (st_of loop)) /\
  _closed (st_of r) = true /\
  exists t, evs r = t ++ ELog "server has terminated" :: evs (close cfg quiet_env (st_of loop)).
Proof.
  apply (start_clean_shutdown Py2 (plain_cfg ThreadedServer true) quiet_env
           (Server_init [LConn 1%positive peer; LFail KeyboardInterrupt] HandleSigchld)
           KeyboardInterrupt).
  - reflexivity.
  - reflexivity.
  - right. reflexivity.
Defined.

(** ** The heartbeat *)

Lemma count_if_app {A} (p : A -> bool) (l1 l2 : list A) :
  count_if p (l1 ++ l2) = (count_if p l1 + count_if p l2)%nat.
Proof. induction l1 as [|x l1 IH]; simpl; [done|]. rewrite IH. lia. Qed.

Section Heartbeat.

Variable py : py_version.
Variable cfg : config.
Variable env : Env.

Lemma bg_step_inactive (st : state) (b : bg_register) :
  active st = false ->
  let b' := (bg_step cfg env st b).1 in
  let t := (bg_step cfg env st b).2 in
  (count_if is_register t + calls_left (pc b') <= calls_left (pc b))%nat /\
  (count_if is_sleep t + sleeps_left (pc b') <= sleeps_left (pc b))%nat /\
  (steps_left (pc b') <= pred (steps_left (pc b)))%nat.
Proof.
  intros Ha. unfold bg_step. rewrite Ha.
  destruct (pc b) eqn:Hpc; simpl; try (repeat split; lia).
  - destruct (tnext b <=? time_time env (reads b))%Z; simpl; repeat split; lia.
  - destruct (register_fails env (calls b)); simpl; repeat split; lia.
  - destruct (_closed st); simpl; repeat split; lia.
  - rewrite Hpc. simpl. repeat split; lia.
Qed.

(** No method run by another thread sets [self.active] again. *)
Lemma perform_inactive (a : action) (st : state) :
  active st = false -> active (st_of (perform py cfg env a st)) = false.
Proof.
  intros Ha. destruct a as [|s|]; simpl.
  - destruct (accept_flags py cfg env st) as [_ ->]. done.
  - destruct (serve_flags cfg env s st) as [_ ->]. done.
  - destruct (_closed st) eqn:Hc.
    + rewrite close_closed by done. unfold st_of; simpl. by destruct (kind cfg).
    + rewrite close_open by done. unfold st_of, after_close; simpl.
      by destruct (kind cfg).
Qed.

Lemma run_schedule_inactive (sched : list turn) (st : state) (b : bg_register) :
  active st = false ->
  let b' := (run_schedule py cfg env sched st b).1.2 in
  let t := (run_schedule py cfg env sched st b).2 in
  (count_if is_register t + calls_left (pc b') <= calls_left (pc b))%nat /\
  (count_if is_sleep t + sleeps_left (pc b') <= sleeps_left (pc b))%nat /\
  (steps_left (pc b') <= steps_left (pc b) - count_if is_beat sched)%nat.
Proof.
  revert st b. induction sched as [|[|a] sched IH]; intros st b Ha; simpl.
  - repeat split; lia.
  - pose proof (bg_step_inactive st b Ha) as (H1 & H2 & H3). simpl in *.
    destruct (bg_step cfg env st b) as [b1 t1]. simpl in *.
    specialize (IH st b1 Ha) as (I1 & I2 & I3). simpl in *.
    destruct (run_schedule py cfg env sched st b1) as [[st2 b2] t2]. simpl in *.
    rewrite !count_if_app. repeat split; lia.
  - apply IH. by apply perform_inactive.
Qed.

(** X16: while the server is active the thread stays in its loop: nothing
    the registrar answers takes it out, a call of [register] that raises no
    more than one that returns; only a [close()] by another thread can. *)
Lemma heartbeat_runs_while_active
    (sched : list turn) (st : state) (b : bg_register) :
  active st = true ->
  forallb (fun t => negb (is_close t)) sched = true ->
  looping (pc b) = true ->
  let st' := (run_schedule py cfg env sched st b).1.1 in
  let b' := (run_schedule py cfg env sched st b).1.2 in
  active st' = true /\ looping (pc b') = true.
Proof.
  revert st b. induction sched as [|[|a] sched IH]; intros st b Ha Hs Hl; simpl.
  - done.
  - assert (Hl' : looping (pc (bg_step cfg env st b).1) = true).
    { unfold bg_step. rewrite Ha. destruct (pc b); simpl in *; try done.
      by destruct (tnext b <=? time_time env (reads b))%Z. }
    destruct (bg_step cfg env st b) as [b1 t1]. simpl in *.
    specialize (IH st b1 Ha Hs Hl'). simpl in IH.
    by destruct (run_schedule py cfg env sched st b1) as [[st2 b2] t2].
  - simpl in Hs. apply andb_true_iff in Hs as [Hc Hs].
    apply IH; try done.
    destruct a as [|s|]; simpl in *; try done.
    + destruct (accept_flags py cfg env st) as [_ ->]. done.
    + destruct (serve_flags cfg env s st) as [_ ->]. done.
Qed.

(** One step of the thread on an active server stays in the loop, whether
    the call of the registrar in it returns or raises. *)
Lemma bg_step_keeps_looping (st : state) (b : bg_register) :
  active st = true -> looping (pc b) = true ->
  looping (pc (bg_step cfg env st b).1) = true.
Proof.
  intros Ha Hl. unfold bg_step. rewrite Ha.
  destruct (pc b); simpl in *; try done.
  by destruct (tnext b <=? time_time env (reads b))%Z.
Qed.

(** A whole method call other than [close()] leaves [self.active] set. *)
Lemma perform_active (a : action) (st : state) :
  active st = true -> is_close (Other a) = false ->
  active (st_of (perform py cfg env a st)) = true.
Proof.
  intros Ha Hc. destruct a as [|s|]; simpl in *; try done.
  - destruct (accept_flags py cfg env st) as [_ ->]. done.
  - destruct (serve_flags cfg env s st) as [_ ->]. done.
Qed.

End Heartbeat.

(** C7: take any execution of the heartbeat: the thread runs on an active
    server, under any schedule without a [close()], whatever the registrar
    answers; then [self.active] is false.  If the thread started from a point
    in its loop, the server was still active at that moment and the thread
    still in its loop: no call of [register], raising or returning, has ended
    either.  From then on, wherever the thread is, however the other threads
    are scheduled and whatever the registrar answers, the thread calls
    [registrar.register] at most once more, sleeps at most once more, and has
    ended after five steps of its own. *)
Theorem heartbeat_stops_after_deactivation
    (py : py_version) (cfg : config) (env : Env)
    (before after : list turn) (st0 st : state) (b0 : bg_register) :
  active st0 = true ->
  forallb (fun t => negb (is_close t)) before = true ->
  active st = false ->
  let st1 := (run_schedule py cfg env before st0 b0).1.1 in
  let b := (run_schedule py cfg env before st0 b0).1.2 in
  let b' := (run_schedule py cfg env after st b).1.2 in
  let t := (run_schedule py cfg env after st b).2 in
  (looping (pc b0) = true -> active st1 = true /\ looping (pc b) = true) /\
  (count_if is_register t <= 1)%nat /\
  (count_if is_sleep t <= 1)%nat /\
  ((5 <= count_if is_beat after)%nat -> pc b' = BgDone).
Proof.
  intros Ha0 Hnc Ha st1 b b' t. split.
  - intros Hl0. subst st1 b. clear Ha st after b' t.
    revert st0 b0 Ha0 Hnc Hl0.
    induction before as [|[|a] before IH]; intros st0 b0 Ha0 Hnc Hl0; simpl.
    + done.
    + pose proof (bg_step_keeps_looping cfg env st0 b0 Ha0 Hl0) as Hl1.
      destruct (bg_step cfg env st0 b0) as [b1 t1]. simpl in *.
      specialize (IH st0 b1 Ha0 Hnc Hl1).
      by destruct (run_schedule py cfg env before st0 b1) as [[st2 b2] t2].
    + simpl in Hnc. apply andb_true_iff in Hnc as [Hc Hnc].
      apply negb_true_iff in Hc.
      apply IH; try done. by apply perform_active.
  - destruct (run_schedule_inactive py cfg env after st b Ha) as (H1 & H2 & H3).
    fold b' in H1, H2, H3. fold t in H1, H2.
    assert (calls_left (pc b) <= 1)%nat by (destruct (pc b); simpl; lia).
    assert (sleeps_left (pc b) <= 1)%nat by (destruct (pc b); simpl; lia).
    assert (steps_left (pc b) <= 5)%nat by (destruct (pc b); simpl; lia).
    repeat split; try lia.
    intros H5. destruct (pc b') eqn:Hpc; simpl in H3; try lia. done.
Qed.

(** The registrar is unreachable: the first call of [register] raises, the
    thread sleeps and is about to read the clock again when another thread
    closes the server. *)
Lemma heartbeat_stops_after_deactivation_witness :
  let cfg := plain_cfg ThreadedServer true in
  let st0 := started cfg [LConn 1%positive peer] in
  let before := [Beat; Beat; Beat; Beat; Other DoAccept; Beat; Beat] in
  let after := [Beat; Other (DoServe 1%positive); Beat; Beat; Beat; Beat; Beat] in
  let st1 := (run_schedule Py2 cfg failing_env before st0 _bg_register).1.1 in
  let st := st_of (close cfg failing_env st1) in
  let b := (run_schedule Py2 cfg failing_env before st0 _bg_register).1.2 in
  let b' := (run_schedule Py2 cfg failing_env after st b).1.2 in
  let t := (run_schedule Py2 cfg failing_env after st b).2 in
  (looping (pc _bg_register) = true -> active st1 = true /\ looping (pc b) = true) /\
  (count_if is_register t <= 1)%nat /\
  (count_if is_sleep t <= 1)%nat /\
  ((5 <= count_if is_beat after)%nat -> pc b' = BgDone).
Proof.
  apply (heartbeat_stops_after_deactivation Py2 (plain_cfg ThreadedServer true)
           failing_env); reflexivity.
Defined.

(** C10: the deadline [tnext] starts at 0, so on a server that is active
    when the thread reaches its loop, and with a clock that does not read
    below 0, the first turn of the loop calls [registrar.register(aliases,
    port)]: the call comes before any sleep, and the deadline moves one
    interval past the reading. *)
Theorem heartbeat_registers_at_once
    (py : py_version) (cfg : config) (env : Env) (st : state) :
  active st = true ->
  (0 <= time_time env 0)%Z ->
  run_schedule py cfg env [Beat; Beat; Beat; Beat] st _bg_register =
    (st,
     Bg BgSleep (time_time env 0 + REREGISTER_INTERVAL cfg) 1 1,
     ELog "started background auto-register thread" ::
     ERegister (service_aliases cfg) (port cfg) ::
     match register_fails env 0 with
     | None => []
     | Some _ => [ELog "error registering services"]
     end).
Proof.
  intros Ha Ht. simpl. unfold bg_step; simpl. rewrite Ha. simpl.
  apply Z.leb_le in Ht. rewrite Ht. simpl.
  by destruct (register_fails env 0).
Qed.

Lemma heartbeat_registers_at_once_witness :
  let cfg := plain_cfg ThreadedServer true in
  let st := started cfg [] in
  run_schedule Py2 cfg quiet_env [Beat; Beat; Beat; Beat] st _bg_register =
    (st, Bg BgSleep 1060 1 1,
     [ELog "started background auto-register thread";
      ERegister ["SVC"%string] 18812]).
Proof.
  apply (heartbeat_registers_at_once Py2 (plain_cfg ThreadedServer true) quiet_env
           (started (plain_cfg ThreadedServer true) [])).
  - reflexivity.
  - vm_compute. discriminate.
Defined.

(** ** The registry against the open sockets *)

(** C2, at an input where the code departs from it: a [ForkingServer]
    accepts one client.  The parent adds the socket to its registry, forks,
    and closes its handle (line 238) without discarding it from the registry:
    when [accept()] has returned, the registry holds socket 1 and socket 1 is
    closed.  Nothing in the parent removes it before [close()]; a second
    client makes it two closed sockets. *)
Theorem forking_parent_registers_closed_socket :
  let cfg := plain_cfg ForkingServer false in
  let st := started cfg [LConn 1%positive peer; LConn 2%positive peer] in
  let r := accept Py2 cfg quiet_env st in
  let r' := accept Py2 cfg quiet_env (st_of r) in
  res r = Ok tt /\
  evs r = [ESetBlocking 1%positive; ELog "accepted"; EFork 4321; ESockClose 1%positive] /\
  clients (st_of r) = {[1%positive]} /\ open_socks (st_of r) = ∅ /\
  res r' = Ok tt /\
  clients (st_of r') = {[1%positive; 2%positive]} /\ open_socks (st_of r') = ∅.
Proof. vm_compute. repeat split; reflexivity. Qed.

Section Registry.

Variable py : py_version.
Variable cfg : config.
Variable env : Env.

Hypothesis not_forking : kind cfg <> ForkingServer.

Lemma accept_registry_open (st : state) :
  clients st ⊆ open_socks st ->
  clients (st_of (accept py cfg env st)) ⊆ open_socks (st_of (accept py cfg env st)).
Proof.
  intros Hsub. rewrite accept_unfold.
  pose proof (accept_retry_polled py (S (length (incoming st))) st)
    as (_ & _ & Hcl & _ & _ & Hop).
  pose proof (accept_retry_opens py (S (length (incoming st))) st) as Hin.
  unfold res, st_of in *.
  destruct (accept_retry py (S (length (incoming st))) st)
    as [[[[s a]|e|c|] st1] t1]; cbn -[accept_retry] in *;
    try (rewrite Hcl; set_solver).
  specialize (Hin s a eq_refl).
  unfold _accept_method, ThreadedServer_accept_method.
  destruct (kind cfg); try done; simpl; rewrite Hcl; set_solver.
Qed.

(** X20: in the base and the threaded server every registered socket is
    open, at every point between two method calls: after any sequence of
    startup, accepts, sessions ending and closes. *)
Lemma registry_open_unless_forking (st : state) :
  reachable py cfg env st -> clients st ⊆ open_socks st.
Proof.
  induction 1 as [tape h|st _ IH|st [|s|] _ IH]; simpl.
  - done.
  - rewrite startup_run. destruct (listener st); simpl; done.
  - by apply accept_registry_open.
  - destruct (serve_run cfg env s st) as (r & t & -> & _).
    unfold st_of, torn_down; simpl. set_solver.
  - destruct (_closed st) eqn:Hc.
    + rewrite close_closed by done. unfold st_of; simpl.
      by destruct (kind cfg).
    + rewrite close_open by done. unfold st_of, after_close; simpl.
      destruct (kind cfg); simpl; set_solver.
Qed.

End Registry.

(** * Further properties of the methods *)

(** ** Sessions *)

Section SessionRuns.

Variable cfg : config.
Variable env : Env.

Lemma serve_client_entered (s : sock) (c : cred) (a : addr) (st : state) :
  getpeername env s = Some a ->
  _serve_client env s c st =
    (match serve_all env s c with None => Ok tt | Some e => Raise e end, st,
     [EGetPeerName s;
      ELog (match c with Some _ => "welcome (with credentials)" | None => "welcome" end);
      EServe s c; ELog "goodbye"]).
Proof.
  intros Hp. unfold _serve_client, sock_getpeername. run_m. rewrite Hp. simpl.
  destruct c, (serve_all env s _); reflexivity.
Qed.

Lemma serve_client_peer_gone (s : sock) (c : cred) (st : state) :
  getpeername env s = None ->
  _serve_client env s c st = (Raise (Err (SocketError EBADF)), st, [EGetPeerName s]).
Proof.
  intros Hp. unfold _serve_client, sock_getpeername. run_m. by rewrite Hp.
Qed.

Lemma authenticate_admits (s : sock) (st : state) (s' : positive) (c : cred) :
  admitted cfg env s = Some (s', c) ->
  exists t, authenticate cfg env s st = (Ok (s', Serve c), st, t)
    /\ Forall (fun e => is_serve e = false) t.
Proof.
  unfold admitted, authenticate, sock_getpeername.
  destruct (authenticator cfg) as [auth|]; run_m.
  - destruct (getpeername env s); simpl; [|done].
    destruct (auth s) as [[s1 c1]|]; [|done]. intros [= -> ->]. simpl.
    eexists. split; [reflexivity|]. repeat constructor.
  - intros [= -> <-]. eexists. split; [reflexivity|]. constructor.
Qed.

Lemma authenticate_refuses (s : sock) (st : state) :
  admitted cfg env s = None ->
  exists k t, authenticate cfg env s st = (Ok (s, k), st, t)
    /\ (k = Return \/ exists e, k = Propagate e)
    /\ Forall (fun e => is_serve e = false) t.
Proof.
  unfold admitted, authenticate, sock_getpeername.
  destruct (authenticator cfg) as [auth|]; run_m; [|done].
  destruct (getpeername env s); simpl.
  - destruct (auth s) as [[s1 c1]|[]]; [done|..]; intros _; simpl;
      eexists _, _; (split; [reflexivity|]); (split; [eauto|]); repeat constructor.
  - intros _. eexists _, _. split; [reflexivity|]. split; [eauto|].
    repeat constructor.
Qed.

(** The whole call for a connection that is let through and whose peer
    still answers. *)
Lemma serve_admitted_run (s : sock) (st : state) (s' : positive) (c : cred) (a : addr) :
  admitted cfg env s = Some (s', c) ->
  getpeername env s' = Some a ->
  exists t1, Forall (fun e => is_serve e = false) t1 /\
    _authenticate_and_serve_client cfg env s st =
      (match serve_all env s' c with None => Ok tt | Some e => Raise e end,
       torn_down s' st,
       t1 ++ [EGetPeerName s';
              ELog (match c with
                    | Some _ => "welcome (with credentials)"
                    | None => "welcome"
                    end);
              EServe s' c; ELog "goodbye"]
          ++ match serve_all env s' c with
             | Some (Err _) => [ELog "client connection terminated abruptly"]
             | _ => []
             end
          ++ [EShutdown s'; ESockClose s']).
Proof.
  intros Hadm Hp.
  destruct (authenticate_admits s st s' c Hadm) as (t1 & Ha & Ht1).
  exists t1. split; [done|].
  unfold _authenticate_and_serve_client, mbind, M_bind, bind.
  rewrite Ha. unfold try_finally, try_except, try_except_else.
  rewrite (serve_client_entered s' c a st Hp).
  destruct (serve_all env s' c) as [[err|]|]; unfold log, emit, raise, ret;
    cbn -[teardown]; rewrite teardown_run; reflexivity.
Qed.

(** The whole call when line 126 finds the peer gone. *)
Lemma serve_admitted_peer_gone (s : sock) (st : state) (s' : positive) (c : cred) :
  admitted cfg env s = Some (s', c) ->
  getpeername env s' = None ->
  exists r t1, Forall (fun e => is_serve e = false) t1 /\
    _authenticate_and_serve_client cfg env s st =
      (r, torn_down s' st, t1 ++ [EShutdown s'; ESockClose s']).
Proof.
  intros Hadm Hp.
  destruct (authenticate_admits s st s' c Hadm) as (t1 & Ha & Ht1).
  unfold _authenticate_and_serve_client, mbind, M_bind, bind.
  rewrite Ha. unfold try_finally, try_except, try_except_else.
  rewrite (serve_client_peer_gone s' c st Hp).
  unfold log, emit, raise, ret; cbn -[teardown]; rewrite teardown_run.
  eexists _, (t1 ++ [EGetPeerName s'; ELog "client connection terminated abruptly"]).
  split.
  - apply Forall_app. split; [done|]. repeat constructor.
  - rewrite <- app_assoc. reflexivity.
Qed.

(** The whole call for a connection that is not let through. *)
Lemma serve_refused_run (s : sock) (st : state) :
  admitted cfg env s = None ->
  exists r t1, Forall (fun e => is_serve e = false) t1 /\
    _authenticate_and_serve_client cfg env s st =
      (r, torn_down s st, t1 ++ [EShutdown s; ESockClose s]).
Proof.
  intros Hadm.
  destruct (authenticate_refuses s st Hadm) as (k & t1 & Ha & Hk & Ht1).
  unfold _authenticate_and_serve_client, mbind, M_bind, bind.
  rewrite Ha. unfold try_finally.
  destruct Hk as [->|[e ->]]; unfold raise, ret; cbn -[teardown];
    rewrite teardown_run; eexists _, t1; (split; [done|]);
    rewrite ?app_nil_r; reflexivity.
Qed.

Lemma count_if_none {A} (p : A -> bool) (l : list A) :
  Forall (fun x => p x = false) l -> count_if p l = O.
Proof. induction 1 as [|x l Hx _ IH]; simpl; [done|]. by rewrite Hx, IH. Qed.

End SessionRuns.

(** X1: whatever the authenticator and the session runner do, the call
    changes the server at one socket only, the one given or the one the
    authenticator returned for it: that socket leaves the registry and the open
    sockets, every other socket stays where it was, and the flags, the
    listener and the signal handler are as before. *)
Theorem serve_touches_one_socket (cfg : config) (env : Env) (s : sock) (st : state) :
  let st' := st_of (_authenticate_and_serve_client cfg env s st) in
  exists t : positive,
    (t = s \/ exists c, admitted cfg env s = Some (t, c)) /\
    clients st' = clients st ∖ {[t]} /\
    open_socks st' = open_socks st ∖ {[t]} /\
    active st' = active st /\ _closed st' = _closed st /\
    listener st' = listener st /\ incoming st' = incoming st /\
    sigchld st' = sigchld st.
Proof.
  intros st'. subst st'.
  destruct (serve_run cfg env s st) as (r & t & -> & _).
  exists (rebound cfg env s). split; [|by repeat split].
  unfold rebound, admitted.
  destruct (authenticator cfg) as [auth|]; [|by left].
  destruct (getpeername env s); [|by left].
  destruct (auth s) as [[s1 c1]|]; [|by left]. right. by exists c1.
Qed.

(** X2: when a connection was let through and the session runner raises,
    the call raises the same exception: the "goodbye" is logged, an
    [Exception] is logged as an abrupt termination, and the socket is torn
    down before the exception reaches the caller. *)
Theorem session_failure_reraised
    (cfg : config) (env : Env) (s : sock) (st : state)
    (s' : positive) (c : cred) (a : addr) (e : exn) :
  admitted cfg env s = Some (s', c) ->
  getpeername env s' = Some a ->
  serve_all env s' c = Some e ->
  let r := _authenticate_and_serve_client cfg env s st in
  res r = Raise e /\
  ELog "goodbye" ∈ evs r /\
  (e <> KeyboardInterrupt -> ELog "client connection terminated abruptly" ∈ evs r) /\
  (exists t, evs r = t ++ [EShutdown s'; ESockClose s']) /\
  (s' ∉ clients (st_of r)) /\ (s' ∉ open_socks (st_of r)).
Proof.
  intros Hadm Hp Hs r. subst r.
  destruct (serve_admitted_run cfg env s st s' c a Hadm Hp) as (t1 & _ & ->).
  rewrite Hs. unfold res, st_of, evs, torn_down; run_set.
  split; [done|]. split; [|split; [|split; [|split]]].
  - apply elem_of_app. right. do 3 apply list_elem_of_further. apply list_elem_of_here.
  - intros Hne. destruct e as [err|]; [|done].
    apply elem_of_app. right. do 4 apply list_elem_of_further. apply list_elem_of_here.
  - destruct e as [err|]; simpl.
    + eexists (t1 ++ [_; _; _; _; _]). by rewrite <- app_assoc.
    + eexists (t1 ++ [_; _; _; _]). by rewrite <- app_assoc.
  - set_solver.
  - set_solver.
Qed.

Lemma session_failure_reraised_witness :
  let cfg := plain_cfg ThreadedServer false in
  let r := _authenticate_and_serve_client cfg failing_env 1%positive
             (one_client Py2 cfg failing_env) in
  res r = Raise (Err (OtherError "protocol error")) /\
  ELog "goodbye" ∈ evs r /\
  (Err (OtherError "protocol error") <> KeyboardInterrupt ->
     ELog "client connection terminated abruptly" ∈ evs r) /\
  (exists t, evs r = t ++ [EShutdown 1%positive; ESockClose 1%positive]) /\
  (1%positive ∉ clients (st_of r)) /\ (1%positive ∉ open_socks (st_of r)).
Proof.
  apply (session_failure_reraised (plain_cfg ThreadedServer false) failing_env
           1%positive _ 1%positive None peer); reflexivity.
Defined.

(** X3: an authenticator that fails with anything but [AuthenticationError]
    is not a rejection: the error reaches the caller.  The session runner is
    not entered all the same, and the socket is shut down, closed and discarded
    from the registry. *)
Theorem authenticator_error_escalates
    (cfg : config) (env : Env) (s : sock) (st : state)
    (auth : sock -> (sock * cred) + error) (a : addr) (e : error) :
  authenticator cfg = Some auth ->
  getpeername env s = Some a ->
  auth s = inr e ->
  e <> AuthenticationError ->
  _authenticate_and_serve_client cfg env s st =
    (Raise (Err e), torn_down s st,
     [EGetPeerName s; EAuthenticate s; EShutdown s; ESockClose s]).
Proof.
  intros Hauth Hp He Hne.
  unfold _authenticate_and_serve_client, authenticate, sock_getpeername.
  rewrite Hauth. run_m. rewrite Hp. simpl. rewrite He.
  destruct e; try done; simpl; by rewrite teardown_run.
Qed.

Lemma authenticator_error_escalates_witness :
  let cfg := auth_cfg ThreadedServer broken_auth in
  let st := one_client Py2 cfg quiet_env in
  _authenticate_and_serve_client cfg quiet_env 1%positive st =
    (Raise (Err (OtherError "certificate store unreadable")), torn_down 1%positive st,
     [EGetPeerName 1%positive; EAuthenticate 1%positive;
      EShutdown 1%positive; ESockClose 1%positive]).
Proof.
  apply (authenticator_error_escalates (auth_cfg ThreadedServer broken_auth) quiet_env
           1%positive _ broken_auth peer); [reflexivity..|discriminate].
Defined.

(** X4: one call enters the session runner at most once, and only for a
    connection that was let through, with the socket and the credentials that
    the authenticator returned ([None] and the raw socket when there is no
    authenticator). *)
Theorem session_runner_entered_once
    (cfg : config) (env : Env) (s : sock) (st : state) :
  let r := _authenticate_and_serve_client cfg env s st in
  (count_if is_serve (evs r) <= 1)%nat /\
  forall (s' : positive) (c : cred),
    EServe s' c ∈ evs r -> admitted cfg env s = Some (s', c).
Proof.
  intros r. subst r.
  assert (Hnot : forall t1 s' c,
            Forall (fun e => is_serve e = false) t1 -> EServe s' c ∉ t1).
  { intros t1 s' c Ht Hin. rewrite Forall_forall in Ht. by specialize (Ht _ Hin). }
  destruct (admitted cfg env s) as [[s1 c1]|] eqn:Hadm.
  - destruct (getpeername env s1) as [a|] eqn:Hp.
    + destruct (serve_admitted_run cfg env s st s1 c1 a Hadm Hp) as (t1 & Ht1 & ->).
      unfold evs; simpl. rewrite count_if_app, (count_if_none _ _ Ht1).
      split.
      * destruct (serve_all env s1 c1) as [[err|]|]; simpl; lia.
      * intros s' c Hin. apply elem_of_app in Hin as [Hin|Hin];
          [by destruct (Hnot _ _ _ Ht1 Hin)|].
        destruct (serve_all env s1 c1) as [[err|]|]; simpl in Hin;
          repeat (apply elem_of_cons in Hin as [Hin|Hin];
                  [by inversion Hin|]);
          by apply elem_of_nil in Hin.
    + destruct (serve_admitted_peer_gone cfg env s st s1 c1 Hadm Hp)
        as (r & t1 & Ht1 & ->).
      unfold evs; simpl. rewrite count_if_app, (count_if_none _ _ Ht1). simpl.
      split; [lia|]. intros s' c Hin. apply elem_of_app in Hin as [Hin|Hin];
        [by destruct (Hnot _ _ _ Ht1 Hin)|].
      repeat (apply elem_of_cons in Hin as [Hin|Hin]; [by inversion Hin|]).
      by apply elem_of_nil in Hin.
  - destruct (serve_refused_run cfg env s st Hadm) as (r & t1 & Ht1 & ->).
    unfold evs; simpl. rewrite count_if_app, (count_if_none _ _ Ht1). simpl.
    split; [lia|]. intros s' c Hin. apply elem_of_app in Hin as [Hin|Hin];
      [by destruct (Hnot _ _ _ Ht1 Hin)|].
    repeat (apply elem_of_cons in Hin as [Hin|Hin]; [by inversion Hin|]).
    by apply elem_of_nil in Hin.
Qed.

(** ** Closing, once more *)

Lemma close_events_count_shutdown (c : positive) (l : list positive) :
  NoDup l ->
  (c ∈ l -> count_if (is_shutdown_of c) (close_events l) = 1%nat) /\
  (c ∉ l -> count_if (is_shutdown_of c) (close_events l) = O).
Proof.
  induction 1 as [|x l Hx Hnd [IH1 IH0]]; simpl.
  - split; [by intros ?%elem_of_nil | done].
  - destruct (Pos.eqb_spec c x) as [->|Hne].
    + split; [intros _; by rewrite IH0 | intros []; apply list_elem_of_here].
    + split.
      * intros [?|Hin]%elem_of_cons; [done|]. by rewrite IH1.
      * intros Hnin. rewrite IH0; [done|]. intros Hin. apply Hnin.
        by apply list_elem_of_further.
Qed.

Lemma close_events_count_close (c : positive) (l : list positive) :
  NoDup l ->
  (c ∈ l -> count_if (is_close_of c) (close_events l) = 1%nat) /\
  (c ∉ l -> count_if (is_close_of c) (close_events l) = O).
Proof.
  induction 1 as [|x l Hx Hnd [IH1 IH0]]; simpl.
  - split; [by intros ?%elem_of_nil | done].
  - destruct (Pos.eqb_spec c x) as [->|Hne].
    + split; [intros _; by rewrite IH0 | intros []; apply list_elem_of_here].
    + split.
      * intros [?|Hin]%elem_of_cons; [done|]. by rewrite IH1.
      * intros Hnin. rewrite IH0; [done|]. intros Hin. apply Hnin.
        by apply list_elem_of_further.
Qed.

(** X5: the first [close()] shuts down and closes every socket of the
    registry exactly once, whatever the shutdown attempts answer, and leaves
    alone every socket that is not in the registry: such a socket is neither
    shut down nor closed, and is open afterwards if it was before. *)
Theorem close_each_socket_once
    (cfg : config) (env : Env) (st : state) (c : positive) :
  _closed st = false ->
  let r := close cfg env st in
  (c ∈ clients st ->
     count_if (is_shutdown_of c) (evs r) = 1%nat /\
     count_if (is_close_of c) (evs r) = 1%nat) /\
  (c ∉ clients st ->
     count_if (is_shutdown_of c) (evs r) = O /\
     count_if (is_close_of c) (evs r) = O /\
     (c ∈ open_socks st -> c ∈ open_socks (st_of r))).
Proof.
  intros Hc r. subst r. rewrite close_open by done.
  unfold evs, st_of; simpl.
  assert (Hu1 : count_if (is_shutdown_of c) (unregister_events cfg env) = O).
  { unfold unregister_events. destruct (auto_register cfg); [|done].
    by destruct (unregister_fails env (port cfg)). }
  assert (Hu2 : count_if (is_close_of c) (unregister_events cfg env) = O).
  { unfold unregister_events. destruct (auto_register cfg); [|done].
    by destruct (unregister_fails env (port cfg)). }
  assert (Hr1 : count_if (is_shutdown_of c) (restore_events cfg) = O).
  { unfold restore_events. by destruct (kind cfg). }
  assert (Hr2 : count_if (is_close_of c) (restore_events cfg) = O).
  { unfold restore_events. by destruct (kind cfg). }
  pose proof (NoDup_elements (clients st)) as Hnd.
  destruct (close_events_count_shutdown c _ Hnd) as [Hs1 Hs0].
  destruct (close_events_count_close c _ Hnd) as [Hc1 Hc0].
  rewrite !count_if_app, Hu1, Hu2; simpl. rewrite !count_if_app, Hr1, Hr2.
  split.
  - intros Hin. apply elem_of_elements in Hin. rewrite Hs1, Hc1 by done. done.
  - intros Hnin.
    assert (Hnin' : c ∉ elements (clients st)) by by rewrite elem_of_elements.
    rewrite Hs0, Hc0 by done. split; [done|]. split; [done|].
    unfold after_close, closed_state. destruct (kind cfg); simpl; set_solver.
Qed.

(** One client is registered (socket 1); socket 2 is not. *)
Lemma close_each_socket_once_witness :
  let cfg := plain_cfg ThreadedServer true in
  let st := one_client Py2 cfg failing_env in
  let r := close cfg failing_env st in
  ((1%positive ∈ clients st ->
      count_if (is_shutdown_of 1%positive) (evs r) = 1%nat /\
      count_if (is_close_of 1%positive) (evs r) = 1%nat) /\
   (1%positive ∉ clients st ->
      count_if (is_shutdown_of 1%positive) (evs r) = O /\
      count_if (is_close_of 1%positive) (evs r) = O /\
      (1%positive ∈ open_socks st -> 1%positive ∈ open_socks (st_of r)))) /\
  ((2%positive ∈ clients st ->
      count_if (is_shutdown_of 2%positive) (evs r) = 1%nat /\
      count_if (is_close_of 2%positive) (evs r) = 1%nat) /\
   (2%positive ∉ clients st ->
      count_if (is_shutdown_of 2%positive) (evs r) = O /\
      count_if (is_close_of 2%positive) (evs r) = O /\
      (2%positive ∈ open_socks st -> 2%positive ∈ open_socks (st_of r)))).
Proof.
  split.
  - apply (close_each_socket_once (plain_cfg ThreadedServer true) failing_env _
             1%positive). reflexivity.
  - apply (close_each_socket_once (plain_cfg ThreadedServer true) failing_env _
             2%positive). reflexivity.
Defined.

(** ** Accepting, once more *)

Section AcceptRuns.

Variable py : py_version.
Variable cfg : config.
Variable env : Env.

(** The loop of [accept] makes no call of its own besides
    [listener.accept()]. *)
Lemma accept_retry_silent (n : nat) (st : state) :
  evs (accept_retry py n st) = [].
Proof.
  revert st. induction n as [|n IH]; intros st; [done|].
  simpl. unfold try_except_else, listener_accept. run_m.
  destruct (listener st); simpl.
  - unfold exc_getitem0. by destruct py.
  - destruct (incoming st) as [|[s' a'|e] rest]; simpl; try done.
    specialize (IH (set_incoming rest st)).
    destruct e as [[]|]; simpl; try done.
    + by destruct (accept_retry py n (set_incoming rest st)) as [[r st2] t2].
    + unfold exc_getitem0. destruct py; run_m; try done.
      destruct (errno =? EINTR)%Z; simpl; try done.
      by destruct (accept_retry _ n (set_incoming rest st)) as [[r st2] t2].
  - unfold exc_getitem0. by destruct py.
Qed.

Lemma accept_retry_timeouts (pre rest : list listen_outcome) (s : positive) (a : addr)
    (st : state) (b : Z) (n : nat) :
  listener st = Listening b ->
  incoming st = pre ++ LConn s a :: rest ->
  forallb timed_out pre = true ->
  (length pre < n)%nat ->
  accept_retry py n st = (Ok (s, a), delivered (LConn s a) rest st, []).
Proof.
  revert st n. induction pre as [|p pre IH]; intros st n Hl Hi Hpre Hn;
    (destruct n as [|n]; [simpl in Hn; lia|]);
    simpl; unfold try_except_else, listener_accept; run_m; rewrite Hl, Hi; simpl.
  - done.
  - apply andb_true_iff in Hpre as [Hp Hpre].
    destruct p as [s' a'|[[]|]]; simpl in Hp; try done. simpl.
    rewrite (IH (set_incoming (pre ++ LConn s a :: rest) st) n); try done.
    simpl in Hn. lia.
Qed.

End AcceptRuns.

(** X6: a poll timeout of the listener is passed over under either version
    of the interpreter: after any number of timeouts, [accept]'s loop returns
    the connection that follows, leaves no trace of the timeouts, and keeps
    what the listener has behind it. *)
Theorem accept_passes_over_timeouts
    (py : py_version) (pre rest : list listen_outcome) (s : positive) (a : addr)
    (st : state) (b : Z) :
  listener st = Listening b ->
  incoming st = pre ++ LConn s a :: rest ->
  forallb timed_out pre = true ->
  accept_retry py (S (length (incoming st))) st
    = (Ok (s, a), set_open_socks ({[s]} ∪ open_socks st) (set_incoming rest st), []).
Proof.
  intros Hl Hi Hpre.
  rewrite (accept_retry_timeouts py pre rest s a st b); try done.
  rewrite Hi, length_app. simpl. lia.
Qed.

Lemma accept_passes_over_timeouts_witness :
  let st := started (plain_cfg ThreadedServer false)
              [LFail (Err SocketTimeout); LFail (Err SocketTimeout); LConn 1%positive peer] in
  accept_retry Py3 (S (length (incoming st))) st
    = (Ok (1%positive, peer),
       set_open_socks ({[1%positive]} ∪ open_socks st) (set_incoming [] st), []).
Proof.
  apply (accept_passes_over_timeouts Py3
           [LFail (Err SocketTimeout); LFail (Err SocketTimeout)] [] 1%positive peer
           _ 10); reflexivity.
Defined.

(** X7: under Python 2 the loop of [accept] passes over any number of
    timeouts and interrupted calls, and the first other outcome decides: a
    connection is returned, a socket error becomes [EOFError], anything else is
    raised as it is; nothing of what the listener has behind it is
    consumed. *)
Theorem accept_py2_first_outcome_decides
    (pre rest : list listen_outcome) (o : listen_outcome) (st : state) (b : Z) :
  listener st = Listening b ->
  incoming st = pre ++ o :: rest ->
  forallb retryable pre = true ->
  retryable o = false ->
  accept_retry Py2 (S (length (incoming st))) st = (settled o, delivered o rest st, []).
Proof.
  intros Hl Hi Hpre Ho.
  rewrite (accept_retry_py2 pre rest o st b); try done.
  rewrite Hi, length_app. simpl. lia.
Qed.

Lemma accept_py2_first_outcome_decides_witness :
  let st := started (plain_cfg ThreadedServer false)
              [LFail (Err (SocketError EINTR)); LFail (Err SocketTimeout);
               LFail (Err (SocketError EBADF)); LConn 1%positive peer] in
  accept_retry Py2 (S (length (incoming st))) st
    = (Raise (Err EOFError), set_incoming [LConn 1%positive peer] st, []).
Proof.
  apply (accept_py2_first_outcome_decides
           [LFail (Err (SocketError EINTR)); LFail (Err SocketTimeout)]
           [LConn 1%positive peer] (LFail (Err (SocketError EBADF))) _ 10);
    reflexivity.
Defined.

(** X8: [accept()] of a [ThreadedServer] either returns, and then it has
    added exactly one socket to the registry, an open one, and created one
    worker for it; or it does not return, and then the registry is as it was
    and nothing was called.  In neither case is a socket closed. *)
Theorem threaded_accept_registers_one
    (py : py_version) (cfg : config) (env : Env) (st : state) :
  kind cfg = ThreadedServer ->
  let r := accept py cfg env st in
  match res r with
  | Ok _ =>
      exists s : positive,
        clients (st_of r) = {[s]} ∪ clients st /\ s ∈ open_socks (st_of r) /\
        evs r = [ESetBlocking s; ELog "accepted"; ESpawnWorker s]
  | _ => clients (st_of r) = clients st /\ evs r = []
  end /\
  open_socks st ⊆ open_socks (st_of r).
Proof.
  intros Hk r. subst r. rewrite accept_unfold.
  pose proof (accept_retry_polled py (S (length (incoming st))) st)
    as (_ & _ & Hcl & _ & _ & Hop).
  pose proof (accept_retry_opens py (S (length (incoming st))) st) as Hin.
  pose proof (accept_retry_silent py (S (length (incoming st))) st) as Hev.
  unfold res, st_of, evs in *.
  destruct (accept_retry py (S (length (incoming st))) st)
    as [[[[s a]|e|c|] st1] t1]; cbn -[accept_retry] in *; subst t1; try done.
  specialize (Hin s a eq_refl).
  unfold _accept_method, ThreadedServer_accept_method. rewrite Hk. simpl.
  split; [|done]. exists s. by rewrite Hcl.
Qed.

Lemma threaded_accept_registers_one_witness :
  let cfg := plain_cfg ThreadedServer false in
  let st := started cfg [LFail (Err SocketTimeout); LConn 1%positive peer] in
  let r := accept Py2 cfg quiet_env st in
  match res r with
  | Ok _ =>
      exists s : positive,
        clients (st_of r) = {[s]} ∪ clients st /\ s ∈ open_socks (st_of r) /\
        evs r = [ESetBlocking s; ELog "accepted"; ESpawnWorker s]
  | _ => clients (st_of r) = clients st /\ evs r = []
  end /\
  open_socks st ⊆ open_socks (st_of r).
Proof.
  apply (threaded_accept_registers_one Py2 (plain_cfg ThreadedServer false) quiet_env).
  reflexivity.
Defined.

(** X9: the base class has no dispatch: once a connection has arrived,
    [accept()] of a plain [Server] raises [NotImplementedError] from
    [_accept_method], after the socket was put into the registry, where it
    stays, open. *)
Theorem base_accept_not_implemented
    (py : py_version) (cfg : config) (env : Env) (st : state)
    (s : positive) (a : addr) :
  kind cfg = BaseServer ->
  res (accept_retry py (S (length (incoming st))) st) = Ok (s, a) ->
  let r := accept py cfg env st in
  res r = Raise (Err NotImplementedError) /\
  clients (st_of r) = {[s]} ∪ clients st /\
  s ∈ open_socks (st_of r) /\
  evs r = [ESetBlocking s; ELog "accepted"].
Proof.
  intros Hk Hr r. subst r. rewrite accept_unfold.
  pose proof (accept_retry_polled py (S (length (incoming st))) st)
    as (_ & _ & Hcl & _ & _ & Hop).
  pose proof (accept_retry_opens py (S (length (incoming st))) st) as Hin.
  pose proof (accept_retry_silent py (S (length (incoming st))) st) as Hev.
  unfold res, st_of, evs in *.
  destruct (accept_retry py (S (length (incoming st))) st)
    as [[[[s1 a1]|e|c|] st1] t1]; cbn -[accept_retry] in *; subst t1; try done.
  injection Hr as -> ->. specialize (Hin s a eq_refl).
  unfold _accept_method. rewrite Hk. simpl. by rewrite Hcl.
Qed.

Lemma base_accept_not_implemented_witness :
  let cfg := plain_cfg BaseServer false in
  let st := started cfg [LConn 1%positive peer] in
  let r := accept Py2 cfg quiet_env st in
  res r = Raise (Err NotImplementedError) /\
  clients (st_of r) = {[1%positive]} ∪ clients st /\
  1%positive ∈ open_socks (st_of r) /\
  evs r = [ESetBlocking 1%positive; ELog "accepted"].
Proof.
  apply (base_accept_not_implemented Py2 (plain_cfg BaseServer false) quiet_env
           _ 1%positive peer); reflexivity.
Defined.

(** ** The child of a fork *)

(** X10: in the child of a fork, [_accept_method] never returns and lets no
    exception out: whatever the authenticator and the session runner do, the
    process ends by [os._exit(0)].  Before serving, the child has put back the
    previous SIGCHLD handler, closed its copy of the listener and emptied its
    copy of the registry. *)
Theorem forked_child_always_exits (cfg : config) (env : Env) (s : sock) (st : state) :
  os_fork env s = 0 ->
  let r := ForkingServer_accept_method cfg env s st in
  res r = Exited 0 /\
  listener (st_of r) = LClosed /\
  clients (st_of r) = ∅ /\
  sigchld (st_of r) = _prevhandler cfg /\
  exists t,
    evs r = [EFork 0; ELog "child process created"; ESignal (_prevhandler cfg);
             EListenerClose] ++ t ++ [ELog "child terminated"; EExit 0].
Proof.
  intros Hpid r. subst r. unfold ForkingServer_accept_method. rewrite Hpid.
  change (0 =? 0)%Z with true. cbv iota.
  unfold try_finally, try_except_else, signal_signal, listener_close, os_exit.
  unfold mbind, M_bind, bind, emit, log, modify, get, ret.
  cbn -[_authenticate_and_serve_client].
  match goal with
  | |- context [_authenticate_and_serve_client cfg env s ?x] =>
      destruct (serve_run cfg env s x) as (r & t & Heq & Hfin & _); rewrite Heq
  end.
  destruct Hfin as [->|[e ->]]; unfold res, st_of, evs, torn_down; run_set;
    (split; [done|]); (split; [done|]); (split; [set_solver|]); (split; [done|]).
  - exists (t ++ [EShutdown (rebound cfg env s); ESockClose (rebound cfg env s);
                  ELog "child process terminated"]).
    by rewrite <- !app_assoc.
  - exists (t ++ [EShutdown (rebound cfg env s); ESockClose (rebound cfg env s);
                  ELog "child process terminated abnormally"]).
    by rewrite <- !app_assoc.
Qed.

Lemma forked_child_always_exits_witness :
  let cfg := plain_cfg ForkingServer false in
  let env := child_env failing_env in
  let r := ForkingServer_accept_method cfg env 1%positive (one_client Py2 cfg quiet_env) in
  res r = Exited 0 /\
  listener (st_of r) = LClosed /\
  clients (st_of r) = ∅ /\
  sigchld (st_of r) = _prevhandler cfg /\
  exists t,
    evs r = [EFork 0; ELog "child process created"; ESignal (_prevhandler cfg);
             EListenerClose] ++ t ++ [ELog "child terminated"; EExit 0].
Proof.
  apply (forked_child_always_exits (plain_cfg ForkingServer false)
           (child_env failing_env) 1%positive).
  reflexivity.
Defined.

(** ** [start], once more *)

(** X11: when the accept loop of [start()] ends by an exception other than
    [EOFError] and [KeyboardInterrupt], [start()] still runs [close()] on the
    state the loop left, so the server ends closed, and then lets the same
    exception out. *)
Theorem start_reraises_after_close
    (py : py_version) (cfg : config) (env : Env) (st : state) (e : exn) :
  res (startup cfg st) = Ok tt ->
  let st1 := st_of (startup cfg st) in
  let loop := accept_forever py cfg env (S (length (incoming st1))) st1 in
  res loop = Raise e ->
  e <> Err EOFError ->
  e <> KeyboardInterrupt ->
  let r := start py cfg env st in
  res r = Raise e /\
  st_of r = st_of (close cfg env (st_of loop)) /\
  _closed (st_of r) = true /\
  exists t, evs r = t ++ ELog "server has terminated" :: evs (close cfg env (st_of loop)).
Proof.
  intros Hs st1 loop Hl He1 He2 r. subst r loop st1.
  unfold start, try_finally, try_except, try_except_else, mbind, M_bind, bind, get.
  unfold res, st_of, evs in *.
  destruct (startup cfg st) as [[r1 st1] t1].
  cbn -[accept_forever close] in *. subst r1.
  destruct (accept_forever py cfg env (S (length (incoming st1))) st1)
    as [[r2 st2] t2].
  cbn -[close] in *. subst r2.
  pose proof (close_returns cfg env st2) as Hr.
  pose proof (close_closes cfg env st2) as Hc.
  unfold res, st_of in Hr, Hc.
  destruct e as [[]|]; try done; unfold raise, ret, emit, log; cbn -[close];
    destruct (close cfg env st2) as [[r3 st3] t3]; cbn in *; subst r3;
    (split; [done|]); (split; [done|]); (split; [done|]);
    exists (t1 ++ t2); by rewrite <- !app_assoc, ?app_nil_r.
Qed.

(** A plain [Server] is started and a client connects: the
    [NotImplementedError] of [_accept_method] ends [start()], after
    [close()]. *)
Lemma start_reraises_after_close_witness :
  let cfg := plain_cfg BaseServer false in
  let st := Server_init [LConn 1%positive peer] SigDfl in
  let st1 := st_of (startup cfg st) in
  let loop := accept_forever Py2 cfg quiet_env (S (length (incoming st1))) st1 in
  let r := start Py2 cfg quiet_env st in
  res r = Raise (Err NotImplementedError) /\
  st_of r = st_of (close cfg quiet_env (st_of loop)) /\
  _closed (st_of r) = true /\
  exists t, evs r = t ++ ELog "server has terminated" :: evs (close cfg quiet_env (st_of loop)).
Proof.
  apply (start_reraises_after_close Py2 (plain_cfg BaseServer false) quiet_env
           (Server_init [LConn 1%positive peer] SigDfl) (Err NotImplementedError));
    [reflexivity | reflexivity | discriminate | discriminate].
Defined.

(** ** What a method never calls

    [emits_only P m] goes through every way of composing statements, like
    [stable]. *)

Section EmitsOnly.

Context (P : event -> Prop).

Lemma emits_only_ret {A} (a : A) : emits_only P (ret a).
Proof. intros st. constructor. Qed.

Lemma emits_only_raise {A} (e : exn) : emits_only P (@raise A e).
Proof. intros st. constructor. Qed.

Lemma emits_only_blocked {A} : emits_only P (@blocked A).
Proof. intros st. constructor. Qed.

Lemma emits_only_get : emits_only P get.
Proof. intros st. constructor. Qed.

Lemma emits_only_modify (f : state -> state) : emits_only P (modify f).
Proof. intros st. constructor. Qed.

Lemma emits_only_emit (e : event) : P e -> emits_only P (emit e).
Proof. intros He st. by repeat constructor. Qed.

Lemma emits_only_log (msg : string) : P (ELog msg) -> emits_only P (log msg).
Proof. apply emits_only_emit. Qed.

Lemma emits_only_bind {A B} (m : M A) (k : A -> M B) :
  emits_only P m -> (forall a, emits_only P (k a)) -> emits_only P (m ≫= k).
Proof.
  intros Hm Hk st. specialize (Hm st).
  unfold mbind, M_bind, bind, evs in *.
  destruct (m st) as [[[a|e|c|] st1] t1]; simpl in *; try exact Hm.
  specialize (Hk a st1). destruct (k a st1) as [[r st2] t2]; simpl in *.
  by apply Forall_app.
Qed.

Lemma emits_only_try_except_else {A B}
    (m : M A) (h : exn -> M B) (els : A -> M B) :
  emits_only P m -> (forall e, emits_only P (h e)) -> (forall a, emits_only P (els a)) ->
  emits_only P (try_except_else m h els).
Proof.
  intros Hm Hh He st. specialize (Hm st).
  unfold try_except_else, evs in *.
  destruct (m st) as [[[a|e|c|] st1] t1]; simpl in *; try exact Hm.
  - specialize (He a st1). destruct (els a st1) as [[r st2] t2]; simpl in *.
    by apply Forall_app.
  - specialize (Hh e st1). destruct (h e st1) as [[r st2] t2]; simpl in *.
    by apply Forall_app.
Qed.

Lemma emits_only_try_except {A} (m : M A) (h : exn -> M A) :
  emits_only P m -> (forall e, emits_only P (h e)) -> emits_only P (try_except m h).
Proof.
  intros Hm Hh. apply emits_only_try_except_else; auto using @emits_only_ret.
Qed.

Lemma emits_only_try_finally {A} (m : M A) (fin : M unit) :
  emits_only P m -> emits_only P fin -> emits_only P (try_finally m fin).
Proof.
  intros Hm Hf st. specialize (Hm st).
  unfold try_finally, evs in *.
  destruct (m st) as [[[a|e|c|] st1] t1]; simpl in *; try exact Hm;
    specialize (Hf st1); destruct (fin st1) as [[[[]|e'|c'|] st2] t2];
    simpl in *; by apply Forall_app.
Qed.

Lemma emits_only_for_each {A} (xs : list A) (body : A -> M unit) :
  (forall x, emits_only P (body x)) -> emits_only P (for_each xs body).
Proof.
  intros Hb. induction xs as [|x xs IH]; simpl.
  - apply emits_only_ret.
  - apply emits_only_bind; auto.
Qed.

Lemma emits_only_option_raise (o : option error) : emits_only P (option_raise o).
Proof. destruct o; [apply emits_only_raise | apply emits_only_ret]. Qed.

Lemma emits_only_except_Exception_pass (e : exn) :
  emits_only P (except_Exception_pass e).
Proof. destruct e; [apply emits_only_ret | apply emits_only_raise]. Qed.

End EmitsOnly.

Create HintDb emits discriminated.
#[export] Hint Resolve emits_only_ret emits_only_raise emits_only_blocked
  emits_only_get emits_only_modify emits_only_emit emits_only_log emits_only_bind
  emits_only_try_except_else emits_only_try_except emits_only_try_finally
  emits_only_for_each emits_only_option_raise emits_only_except_Exception_pass
  : emits.
#[export] Hint Extern 1 (off_registry _) => (split; [reflexivity | discriminate])
  : emits.

Section OffRegistry.

Variable py : py_version.
Variable cfg : config.
Variable env : Env.

Lemma sock_getpeername_off (s : sock) : emits_only off_registry (sock_getpeername env s).
Proof.
  unfold sock_getpeername. apply emits_only_bind; [auto with emits|].
  intros _. destruct (getpeername env s); auto with emits.
Qed.

Lemma sock_shutdown_off (s : sock) : emits_only off_registry (sock_shutdown env s).
Proof. unfold sock_shutdown. auto 10 with emits. Qed.

Lemma sock_close_off (s : sock) : emits_only off_registry (sock_close s).
Proof. unfold sock_close. auto 10 with emits. Qed.

Lemma listener_close_off : emits_only off_registry listener_close.
Proof. unfold listener_close. auto 10 with emits. Qed.

Lemma signal_signal_off (h : handler) : emits_only off_registry (signal_signal h).
Proof. unfold signal_signal. auto 10 with emits. Qed.

Lemma teardown_off (s : sock) : emits_only off_registry (teardown env s).
Proof.
  unfold teardown.
  apply emits_only_bind;
    [apply emits_only_try_except;
       [apply sock_shutdown_off | apply emits_only_except_Exception_pass]|].
  intros _. apply emits_only_bind; [apply sock_close_off | auto with emits].
Qed.

Lemma serve_client_off (s : sock) (c : cred) : emits_only off_registry (_serve_client env s c).
Proof.
  unfold _serve_client.
  apply emits_only_bind; [apply sock_getpeername_off|]. intros _.
  apply emits_only_bind; [destruct c; auto with emits|]. intros _.
  apply emits_only_try_finally; [|auto with emits].
  apply emits_only_bind; [auto with emits|]. intros _.
  destruct (serve_all env s c); auto with emits.
Qed.

Lemma authenticate_off (s : sock) : emits_only off_registry (authenticate cfg env s).
Proof.
  unfold authenticate. destruct (authenticator cfg) as [auth|]; [|auto with emits].
  apply emits_only_try_except_else; [apply sock_getpeername_off|auto with emits|].
  intros _. apply emits_only_bind; [auto with emits|]. intros _.
  destruct (auth s) as [[s' c]|[]]; auto 10 with emits.
Qed.

Lemma serve_off (s : sock) :
  emits_only off_registry (_authenticate_and_serve_client cfg env s).
Proof.
  unfold _authenticate_and_serve_client.
  apply emits_only_bind; [apply authenticate_off|]. intros [s' k].
  apply emits_only_try_finally; [|apply teardown_off].
  destruct k as [c| |e]; [|auto with emits..].
  apply emits_only_try_except; [apply serve_client_off|].
  intros [err|]; auto 10 with emits.
Qed.

Lemma accept_method_off (s : sock) : emits_only off_registry (_accept_method cfg env s).
Proof.
  unfold _accept_method, ThreadedServer_accept_method, ForkingServer_accept_method.
  destruct (kind cfg); [auto with emits..|].
  apply emits_only_bind; [auto with emits|]. intros _.
  destruct (os_fork env s =? 0)%Z; [|apply sock_close_off].
  apply emits_only_try_finally.
  - apply emits_only_try_except_else; [|auto with emits..].
    apply emits_only_bind; [auto with emits|]. intros _.
    apply emits_only_bind; [apply signal_signal_off|]. intros _.
    apply emits_only_bind; [apply listener_close_off|]. intros _.
    apply emits_only_bind; [auto with emits|]. intros _.
    apply serve_off.
  - apply emits_only_bind; [auto with emits|]. intros _ st.
    repeat constructor; discriminate.
Qed.

Lemma accept_off : emits_only off_registry (accept py cfg env).
Proof.
  intros st. rewrite accept_unfold.
  pose proof (accept_retry_silent py (S (length (incoming st))) st) as Hev.
  unfold evs in *.
  destruct (accept_retry py (S (length (incoming st))) st)
    as [[[[s a]|e|c|] st1] t1]; cbn -[accept_retry] in *; subst t1;
    try constructor.
  pose proof (accept_method_off s (set_clients ({[s]} ∪ clients st1) st1)) as Hm.
  unfold evs in Hm.
  destruct (_accept_method cfg env s _) as [[r st2] t2]; simpl in *.
  repeat constructor; try discriminate. exact Hm.
Qed.

Lemma accept_forever_off (n : nat) : emits_only off_registry (accept_forever py cfg env n).
Proof.
  induction n as [|n IH]; simpl; [auto with emits|].
  apply emits_only_bind; [apply accept_off | auto].
Qed.

Hypothesis no_auto_register : auto_register cfg = false.

Lemma close_off : emits_only off_registry (close cfg env).
Proof.
  intros st. destruct (_closed st) eqn:Hc.
  - rewrite close_closed by done. unfold evs, restore_events; simpl.
    destruct (kind cfg); repeat constructor; discriminate.
  - rewrite close_open by done. unfold evs, unregister_events, restore_events; simpl.
    rewrite no_auto_register. simpl.
    repeat constructor; try discriminate.
    apply Forall_app. split.
    + induction (elements (clients st)); simpl; repeat constructor;
        try discriminate; done.
    + destruct (kind cfg); repeat constructor; discriminate.
Qed.

Lemma startup_off : emits_only off_registry (startup cfg).
Proof.
  intros st. rewrite startup_run. rewrite no_auto_register.
  destruct (listener st); unfold evs; simpl; repeat constructor; discriminate.
Qed.

End OffRegistry.

(** X12: a server constructed with [auto_register = False] leaves the
    registrar alone for the whole of [start()]: no heartbeat thread is
    created, and neither the accept loop, nor the hand-over of a client, nor a
    session run in a forked child, nor the closing [close()] calls
    [register] or [unregister]. *)
Theorem start_without_auto_register_is_silent
    (py : py_version) (cfg : config) (env : Env) (st : state) :
  auto_register cfg = false ->
  Forall off_registry (evs (start py cfg env st)).
Proof.
  intros Hauto. revert st. change (emits_only off_registry (start py cfg env)).
  unfold start.
  apply emits_only_bind; [by apply startup_off|]. intros _.
  apply emits_only_try_finally.
  - apply emits_only_try_except.
    + apply emits_only_bind; [auto with emits|]. intros st0.
      apply accept_forever_off.
    + intros [[]|]; auto 10 with emits.
  - apply emits_only_bind; [auto with emits|]. intros _. by apply close_off.
Qed.

Lemma start_without_auto_register_is_silent_witness :
  Forall off_registry
    (evs (start Py2 (plain_cfg ThreadedServer false) failing_env
            (Server_init [LConn 1%positive peer; LFail (Err (SocketError EBADF))] SigDfl))).
Proof.
  apply (start_without_auto_register_is_silent Py2 (plain_cfg ThreadedServer false)
           failing_env). reflexivity.
Defined.

(** ** The heartbeat, once more *)

Section HeartbeatRuns.

Variable py : py_version.
Variable cfg : config.
Variable env : Env.

Lemma bg_step_call_then_sleep (st : state) (b : bg_register) :
  let b' := (bg_step cfg env st b).1 in
  let t := (bg_step cfg env st b).2 in
  (count_if is_register t + calls_before_sleep (pc b')
     <= calls_before_sleep (pc b) + count_if is_sleep t)%nat.
Proof.
  unfold bg_step. destruct (pc b) eqn:Hpc; simpl; try lia.
  - destruct (active st); simpl; lia.
  - destruct (tnext b <=? time_time env (reads b))%Z; simpl; lia.
  - destruct (register_fails env (calls b)); simpl; lia.
  - destruct (_closed st); simpl; lia.
  - rewrite Hpc. simpl. lia.
Qed.

(** While every reading of the clock is below the deadline, a step of the
    thread that is not the call itself neither calls the registrar nor moves
    the deadline. *)
Lemma bg_step_before_deadline (st : state) (b : bg_register) :
  pc b <> BgEnter -> pc b <> BgRegister ->
  (time_time env (reads b) < tnext b)%Z ->
  let b' := (bg_step cfg env st b).1 in
  pc b' <> BgEnter /\ pc b' <> BgRegister /\ tnext b' = tnext b /\
  (reads b <= reads b' <= S (reads b))%nat /\
  count_if is_register (bg_step cfg env st b).2 = O.
Proof.
  intros H1 H2 Ht. unfold bg_step.
  destruct (pc b) eqn:Hpc; simpl; try done.
  - destruct (active st); simpl; repeat split; try done; lia.
  - apply Z.leb_gt in Ht. rewrite Ht. simpl. repeat split; try done; lia.
  - repeat split; try done; lia.
  - destruct (_closed st); simpl; repeat split; try done; lia.
  - rewrite Hpc. repeat split; try done; lia.
Qed.

End HeartbeatRuns.

(** X13: the heartbeat never calls the registrar twice without sleeping in
    between: from any point of the thread, under any schedule and whatever the
    clock and the registrar answer, the calls of [register] number at most one
    more than the sleeps. *)
Theorem heartbeat_sleeps_between_calls
    (py : py_version) (cfg : config) (env : Env)
    (sched : list turn) (st : state) (b : bg_register) :
  let t := (run_schedule py cfg env sched st b).2 in
  (count_if is_register t <= count_if is_sleep t + 1)%nat.
Proof.
  intros t. subst t.
  assert (H : (count_if is_register (run_schedule py cfg env sched st b).2
               <= calls_before_sleep (pc b)
                  + count_if is_sleep (run_schedule py cfg env sched st b).2)%nat).
  { revert st b. induction sched as [|[|a] sched IH]; intros st b; simpl.
    - lia.
    - pose proof (bg_step_call_then_sleep cfg env st b) as Hs. simpl in Hs.
      destruct (bg_step cfg env st b) as [b1 t1]. simpl in *.
      specialize (IH st b1).
      destruct (run_schedule py cfg env sched st b1) as [[st2 b2] t2]. simpl in *.
      rewrite !count_if_app. lia.
    - apply IH. }
  assert (calls_before_sleep (pc b) <= 1)%nat by (destruct (pc b); simpl; lia).
  lia.
Qed.

(** X14: a heartbeat thread that finds the server inactive when it reaches
    its loop, because [close()] came first, never calls the registrar and
    never sleeps; after three steps of its own it has ended. *)
Theorem heartbeat_born_inactive_is_silent
    (py : py_version) (cfg : config) (env : Env) (sched : list turn) (st : state) :
  active st = false ->
  let b' := (run_schedule py cfg env sched st _bg_register).1.2 in
  let t := (run_schedule py cfg env sched st _bg_register).2 in
  count_if is_register t = O /\
  count_if is_sleep t = O /\
  ((3 <= count_if is_beat sched)%nat -> pc b' = BgDone).
Proof.
  intros Ha b' t.
  destruct (run_schedule_inactive py cfg env sched st _bg_register Ha)
    as (H1 & H2 & H3).
  fold b' in H1, H2, H3. fold t in H1, H2. simpl in H1, H2, H3.
  repeat split; try lia.
  intros H5. destruct (pc b') eqn:Hpc; simpl in H3; try lia. done.
Qed.

Lemma heartbeat_born_inactive_is_silent_witness :
  let cfg := plain_cfg ThreadedServer true in
  let st := st_of (close cfg quiet_env (started cfg [])) in
  let sched := [Beat; Beat; Other DoClose; Beat] in
  let b' := (run_schedule Py2 cfg quiet_env sched st _bg_register).1.2 in
  let t := (run_schedule Py2 cfg quiet_env sched st _bg_register).2 in
  count_if is_register t = O /\
  count_if is_sleep t = O /\
  ((3 <= count_if is_beat sched)%nat -> pc b' = BgDone).
Proof.
  apply (heartbeat_born_inactive_is_silent Py2 (plain_cfg ThreadedServer true) quiet_env).
  reflexivity.
Defined.

(** X15: after a call of the registrar the heartbeat makes no other before
    the clock reaches the deadline: from a point of the loop other than the
    call itself, as long as the readings of the clock that the schedule
    consumes are below [tnext], no turn of the loop calls [register], and the
    deadline stays where it is. *)
Theorem heartbeat_waits_for_deadline
    (py : py_version) (cfg : config) (env : Env)
    (sched : list turn) (st : state) (b : bg_register) :
  pc b <> BgEnter ->
  pc b <> BgRegister ->
  (forall k, (reads b <= k < reads b + count_if is_beat sched)%nat ->
             (time_time env k < tnext b)%Z) ->
  let b' := (run_schedule py cfg env sched st b).1.2 in
  let t := (run_schedule py cfg env sched st b).2 in
  count_if is_register t = O /\ tnext b' = tnext b.
Proof.
  revert st b. induction sched as [|[|a] sched IH]; intros st b H1 H2 Hclock; simpl.
  - done.
  - simpl in Hclock.
    assert (Ht : (time_time env (reads b) < tnext b)%Z) by (apply Hclock; lia).
    pose proof (bg_step_before_deadline cfg env st b H1 H2 Ht) as (P1 & P2 & P3 & P4 & P5).
    simpl in *. destruct (bg_step cfg env st b) as [b1 t1]. simpl in *.
    assert (Hclock1 : forall k,
              (reads b1 <= k < reads b1 + count_if is_beat sched)%nat ->
              (time_time env k < tnext b1)%Z).
    { intros k Hk. rewrite P3. apply Hclock. lia. }
    specialize (IH st b1 P1 P2 Hclock1). simpl in IH.
    destruct (run_schedule py cfg env sched st b1) as [[st2 b2] t2]. simpl in *.
    destruct IH as [I1 I2]. rewrite count_if_app, P5, I1, I2, P3. done.
  - apply IH; try done.
Qed.

(** The thread has just registered at reading 1000 and the interval is 60;
    the next six turns find readings from 1001 on. *)
Lemma heartbeat_waits_for_deadline_witness :
  let cfg := plain_cfg ThreadedServer true in
  let sched := [Beat; Beat; Beat; Other DoAccept; Beat; Beat; Beat] in
  let b := Bg BgSleep 1060 1 1 in
  let b' := (run_schedule Py2 cfg quiet_env sched (started cfg []) b).1.2 in
  let t := (run_schedule Py2 cfg quiet_env sched (started cfg []) b).2 in
  count_if is_register t = O /\ tnext b' = tnext b.
Proof.
  apply (heartbeat_waits_for_deadline Py2 (plain_cfg ThreadedServer true) quiet_env).
  - discriminate.
  - discriminate.
  - intros k Hk. simpl in *. lia.
Defined.

(** A registrar that is unreachable throughout, clients coming and going:
    the heartbeat is still in its loop. *)
Lemma heartbeat_runs_while_active_witness :
  let cfg := plain_cfg ThreadedServer true in
  let st := started cfg [LConn 1%positive peer] in
  let sched := [Beat; Beat; Beat; Beat; Other DoAccept; Beat; Beat;
                Other (DoServe 1%positive); Beat; Beat] in
  let st' := (run_schedule Py2 cfg failing_env sched st _bg_register).1.1 in
  let b' := (run_schedule Py2 cfg failing_env sched st _bg_register).1.2 in
  active st' = true /\ looping (pc b') = true.
Proof.
  apply (heartbeat_runs_while_active Py2 (plain_cfg ThreadedServer true) failing_env);
    reflexivity.
Defined.

Lemma registry_open_unless_forking_witness :
  let cfg := auth_cfg ThreadedServer wrap_channel in
  let st := st_of (_authenticate_and_serve_client cfg quiet_env 1%positive
                     (one_client Py2 cfg quiet_env)) in
  clients st ⊆ open_socks st.
Proof.
  apply (registry_open_unless_forking Py2 (auth_cfg ThreadedServer wrap_channel)
           quiet_env).
  - discriminate.
  - apply (reach_step _ _ _ _ (DoServe 1%positive)).
    apply (reach_step _ _ _ _ DoAccept). apply reach_startup. apply reach_init.
Defined.

(** ** The child reaper *)

Lemma reap_positive (l : list Z) (k n : nat) :
  Forall (fun pid => 0 < pid) l ->
  (length l < n)%nat ->
  reap n (Children l k) =
    (match k with O => CaughtOSError | S _ => Broke end, Children [] k).
Proof.
  revert n. induction l as [|pid l IH]; intros n Hpos Hn;
    (destruct n as [|n]; [simpl in Hn; lia|]); simpl.
  - unfold os_waitpid; simpl. by destruct k.
  - unfold os_waitpid; simpl. inversion Hpos as [|? ? Hp Hl]; subst.
    assert ((pid <=? 0) = false) as -> by (apply Z.leb_gt; lia).
    apply IH; [done|]. simpl in Hn. lia.
Qed.

(** What the loop leaves is the children it came to, minus some it
    reaped. *)
Lemma reap_suffix (n : nat) (c : children) :
  running (reap n c).2 = running c /\
  exists pre, exited c = pre ++ exited (reap n c).2.
Proof.
  revert c. induction n as [|n IH]; intros c; simpl.
  - split; [done|]. by exists [].
  - unfold os_waitpid. destruct (exited c) as [|pid rest] eqn:He.
    + destruct (running c) eqn:Hr; simpl; rewrite ?He;
        (split; [done|]); by exists [].
    + destruct (pid <=? 0); simpl.
      * split; [done|]. by exists [pid].
      * destruct (IH (Children rest (running c))) as [I1 [pre I2]]. simpl in *.
        split; [done|]. exists (pid :: pre). by rewrite I2 at 1.
Qed.

Lemma reap_ends (n : nat) (c : children) :
  (length (exited c) < n)%nat -> (reap n c).1 <> Reaping.
Proof.
  revert c. induction n as [|n IH]; intros c Hn; [lia|]. simpl.
  unfold os_waitpid. destruct (exited c) as [|pid rest] eqn:He.
  - by destruct (running c).
  - destruct (pid <=? 0); [done|]. apply IH. simpl in *. lia.
Qed.

(** X17: one run of the SIGCHLD handler collects every child that has
    exited, however many exited at once, leaves the running children alone,
    and installs itself again; it returns normally whether children are still
    running or the last one is gone and [waitpid] raises [OSError]. *)
Theorem sigchld_handler_reaps_all (c : children) (st : state) :
  Forall (fun pid => 0 < pid) (exited c) ->
  _handle_sigchld c st =
    (Ok (Children [] (running c)), set_sigchld HandleSigchld st,
     [ESignal HandleSigchld]).
Proof.
  intros Hpos. unfold _handle_sigchld.
  destruct c as [l k]. cbn [exited running] in *.
  rewrite (reap_positive l k (S (length l)) Hpos) by lia.
  reflexivity.
Qed.

Lemma sigchld_handler_reaps_all_witness :
  _handle_sigchld (Children [4321; 4322; 4325] 2) (started (plain_cfg ForkingServer false) []) =
    (Ok (Children [] 2),
     set_sigchld HandleSigchld (started (plain_cfg ForkingServer false) []),
     [ESignal HandleSigchld]).
Proof.
  apply (sigchld_handler_reaps_all (Children [4321; 4322; 4325] 2)).
  repeat constructor.
Defined.

(** X18: the SIGCHLD handler always comes to an end and always arms
    itself again: whatever [waitpid] returns, the loop ends within its bound,
    no exception leaves the handler, the only call besides [waitpid] is the
    [signal.signal] of line 216, and the children left are those it came to
    minus the ones it reaped. *)
Theorem sigchld_handler_always_rearms (c : children) (st : state) :
  (reap (S (length (exited c))) c).1 <> Reaping /\
  exists c',
    _handle_sigchld c st =
      (Ok c', set_sigchld HandleSigchld st, [ESignal HandleSigchld]) /\
    running c' = running c /\
    exists reaped, exited c = reaped ++ exited c'.
Proof.
  split; [apply reap_ends; lia|].
  unfold _handle_sigchld.
  destruct (reap_suffix (S (length (exited c))) c) as [Hr [pre He]].
  destruct (reap (S (length (exited c))) c) as [e c'] eqn:Hreap. simpl in *.
  exists c'. split; [reflexivity|]. split; [done|]. by exists pre.
Qed.

(** ** The SIGCHLD handler over the life of a [ForkingServer] *)

Section ForkingParent.

Variable py : py_version.
Variable cfg : config.
Variable env : Env.

Hypothesis forking : kind cfg = ForkingServer.
Hypothesis parent : forall s, os_fork env s <> 0.

Lemma accept_parent_frame (st : state) :
  sigchld (st_of (accept py cfg env st)) = sigchld st /\
  _closed (st_of (accept py cfg env st)) = _closed st.
Proof.
  rewrite accept_unfold.
  pose proof (accept_retry_polled py (S (length (incoming st))) st)
    as (Hc & _ & _ & _ & Hs & _).
  unfold st_of in *.
  destruct (accept_retry py (S (length (incoming st))) st)
    as [[[[s a]|e|c|] st1] t1]; cbn -[accept_retry] in *; try done.
  unfold _accept_method, ForkingServer_accept_method. rewrite forking.
  destruct (os_fork env s =? 0)%Z eqn:Hpid.
  - apply Z.eqb_eq in Hpid. by destruct (parent s).
  - unfold sock_close. run_m. done.
Qed.

Lemma perform_handler_inv (a : action) (st : state) :
  handler_inv cfg st -> handler_inv cfg (st_of (perform py cfg env a st)).
Proof.
  unfold handler_inv. intros Hinv. destruct a as [|s|]; simpl.
  - destruct (accept_parent_frame st) as [-> ->]. done.
  - destruct (serve_run cfg env s st) as (r & t & -> & _). done.
  - destruct (_closed st) eqn:Hc.
    + rewrite close_closed by done. unfold st_of; simpl. rewrite forking.
      simpl. by rewrite Hc.
    + rewrite close_open by done. unfold st_of, after_close; simpl.
      by rewrite forking.
Qed.

Lemma run_actions_handler_inv (acts : list action) (st : state) :
  handler_inv cfg st -> handler_inv cfg (run_actions py cfg env acts st).
Proof.
  revert st. induction acts as [|a acts IH]; intros st Hinv; [done|].
  simpl. apply IH. by apply perform_handler_inv.
Qed.

Lemma startup_handler_inv (st : state) :
  handler_inv cfg st -> handler_inv cfg (st_of (startup cfg st)).
Proof.
  unfold handler_inv. intros Hinv. rewrite startup_run.
  by destruct (listener st).
Qed.

Lemma close_restores_handler (st : state) :
  sigchld (st_of (close cfg env st)) = _prevhandler cfg.
Proof.
  destruct (_closed st) eqn:Hc.
  - rewrite close_closed by done. unfold st_of; simpl. by rewrite forking.
  - rewrite close_open by done. unfold st_of, after_close; simpl.
    by rewrite forking.
Qed.

End ForkingParent.

(** X19: the constructor of [ForkingServer] and [close()] bracket the
    SIGCHLD handler.  When construction succeeds the server's handler is
    installed; in the parent process it stays installed through startup,
    accepts and sessions for as long as the server is not closed, and
    [close()] puts back the handler that was there before the constructor.
    When construction fails, by a missing [signal] module or by the bind, no
    handler was installed, and without the module no socket was made. *)
Theorem forking_handler_round_trip
    (py : py_version) (h : host) (a : ctor_args) (tape : list listen_outcome)
    (env : Env) (pre post : list action) :
  (forall s, os_fork env s <> 0) ->
  match ForkingServer__init__ h a tape with
  | (inl (cfg, st0), _) =>
      sigchld st0 = HandleSigchld /\
      let st := run_actions py cfg env post
                  (st_of (startup cfg (run_actions py cfg env pre st0))) in
      (_closed st = false -> sigchld st = HandleSigchld) /\
      sigchld (st_of (close cfg env st)) = sigchld_before h
  | (inr _, done) =>
      Forall (fun ev => ev <> CSignal HandleSigchld) done /\
      (signal_module h = false -> done = [])
  end.
Proof.
  intros Hparent. unfold ForkingServer__init__, Server__init__.
  destruct (signal_module h); [|by split].
  destruct (bind_port h (arg_hostname a) (arg_port a)) as [p|e].
  - split; [done|].
    set (cfg := with_prevhandler _ _). set (st0 := set_sigchld _ _).
    assert (Hk : kind cfg = ForkingServer) by done.
    assert (Hinv0 : handler_inv cfg st0) by done.
    cbv zeta.
    set (st := run_actions py cfg env post _).
    assert (Hinv : handler_inv cfg st).
    { apply run_actions_handler_inv; try done.
      apply startup_handler_inv. by apply run_actions_handler_inv. }
    split.
    + intros Hc. unfold handler_inv in Hinv. by rewrite Hc in Hinv.
    + by rewrite close_restores_handler.
  - split; [|done].
    destruct (arg_reuse_addr a && negb (String.eqb (sys_platform h) "win32"));
      repeat constructor; discriminate.
Qed.

Lemma forking_handler_round_trip_witness :
  match ForkingServer__init__ unix_host (default_args ["SVC"%string])
          [LConn 1%positive peer] with
  | (inl (cfg, st0), _) =>
      sigchld st0 = HandleSigchld /\
      let st := run_actions Py2 cfg quiet_env [DoAccept; DoAccept]
                  (st_of (startup cfg (run_actions Py2 cfg quiet_env [] st0))) in
      (_closed st = false -> sigchld st = HandleSigchld) /\
      sigchld (st_of (close cfg quiet_env st)) = sigchld_before unix_host
  | (inr _, done) =>
      Forall (fun ev => ev <> CSignal HandleSigchld) done /\
      (signal_module unix_host = false -> done = [])
  end.
Proof.
  apply (forking_handler_round_trip Py2 unix_host (default_args ["SVC"%string])
           [LConn 1%positive peer] quiet_env [] [DoAccept; DoAccept]).
  intros s. discriminate.
Defined.
